(** * The peer registry and lifecycle of the daemon server (server.go)

    A shallow embedding of [server.go]: the [server] struct, its lifecycle
    ([Start], [Stop]), the registry operations run by the peer manager
    ([addPeer], [removePeer]), the query handlers ([handleListPeers],
    [handleConnectPeer] and the dial goroutine it launches) and the caller
    side of [Peers].  Sequential code is written in a small state monad over
    a [world] (the server struct, the heap of slice backing arrays and the
    log of effects on collaborators and channels); the goroutines are put
    together by a labelled step function further down. *)

From stdpp Require Import gmap strings list fin_maps.
From Stdlib Require Import ZArith Lia.

Local Open Scope Z_scope.

(** ** Machine integers *)

(** [int32] arithmetic of [sync/atomic]: results wrap around. *)
Definition wrap32 (z : Z) : Z := (z + 2 ^ 31) mod 2 ^ 32 - 2 ^ 31.

Definition int32_range (z : Z) : Prop := - 2 ^ 31 <= z < 2 ^ 31.

(** ** Data *)

(** Go's [error] interface carries a message; [nil] is [None]. *)
Definition error : Type := string.

(** Modelled from the spec: [lndc.LNAdr] is declared outside this file.  The
    dial goroutine reads [PubKey], [Base58Adr] and [NetAddr]; the duplicate
    check only compares the [String()] renderings, kept as a field. *)
Record LNAdr := mkLNAdr {
  PubKey : option (list Z);
  Base58Adr : list Z;
  NetAddr : string;
  LNAdr_String : string
}.

(** Modelled from the spec: the [peer] struct is declared outside this file.
    [server.go] reads [id] and [lightningAddr] and calls [Start] and [Stop];
    the registry stores pointers, so a peer carries the address of its
    object. *)
Record peer := mkPeer {
  peer_ptr : positive;
  peer_id : Z;
  lightningAddr : LNAdr
}.

Global Instance LNAdr_eq_dec : EqDecision LNAdr.
Proof. solve_decision. Defined.

Global Instance peer_eq_dec : EqDecision peer.
Proof. solve_decision. Defined.

(** A [net.Listener]; [l_close] is what its [Close()] returns. *)
Record Listener := mkListener {
  l_addr : string;
  l_close : option error
}.

Global Instance Listener_eq_dec : EqDecision Listener.
Proof. solve_decision. Defined.

(** [wire.OutPoint]: transaction hash and output index. *)
Abbreviation OutPoint := (N * N)%type.

(** The [server] struct.  Channels are kept by their contents: the buffered
    [newPeers] and [donePeers] as queues, [quit] by whether it is closed;
    [wg] is the counter of the wait group.  The collaborators ([rpcServer],
    [lnwallet], [fundingMgr]) appear through the effects logged on them. *)
Record server := mkServer {
  started : Z;
  shutdown : Z;
  identityPriv : Z;
  listeners : list Listener;
  peers : gmap Z peer;
  chanIndex : gmap OutPoint peer;
  newPeers : list peer;
  donePeers : list peer;
  wg : Z;
  quit : bool
}.

(** Capacity of [newPeers] and [donePeers]. *)
Definition chanCap : nat := 100.

(** A slice header over a backing array on the heap. *)
Record slice := mkSlice {
  s_arr : positive;
  s_len : nat;
  s_cap : nat
}.

Global Instance slice_eq_dec : EqDecision slice.
Proof. solve_decision. Defined.

(** Reply channels are known by their address. *)
Abbreviation chan := positive.

Record connectPeerMsg := mkConnectPeerMsg {
  addr : LNAdr;
  resp : chan;
  err : chan
}.

Record listPeersMsg := mkListPeersMsg {
  lp_resp : chan
}.

Global Instance connectPeerMsg_eq_dec : EqDecision connectPeerMsg.
Proof. solve_decision. Defined.

Global Instance listPeersMsg_eq_dec : EqDecision listPeersMsg.
Proof. solve_decision. Defined.

(** What the type switch of [queryHandler] can receive. *)
Inductive query :=
| QConnectPeer (msg : connectPeerMsg)
| QListPeers (msg : listPeersMsg)
| QOther.

(** The goroutines launched by [go] statements in this file. *)
Inductive goroutine :=
| GoListener (l : Listener)
| GoPeerManager
| GoQueryHandler
| GoDial (msg : connectPeerMsg).

(** Effects on collaborators and channels, logged in program order.  A send
    is logged when the statement is executed. *)
Inductive event :=
| EvListenerClose (l : Listener)
| EvRpcServerStop
| EvWalletShutdown
| EvFundingMgrStart
| EvFundingMgrStop
| EvCloseQuit
| EvWgWait
| EvPeerStart (p : peer)
| EvPeerStop (p : peer)
| EvSendErr (c : chan) (e : option error)
| EvSendResp (c : chan) (v : Z)
| EvSendPeers (c : chan) (s : slice)
| EvSendNewPeers (p : peer)
| EvDial (priv : Z) (ipAddr : string) (remoteId : list Z)
| EvGo (g : goroutine).

Global Instance query_eq_dec : EqDecision query.
Proof. solve_decision. Defined.

Global Instance goroutine_eq_dec : EqDecision goroutine.
Proof. solve_decision. Defined.

Global Instance event_eq_dec : EqDecision event.
Proof. solve_decision. Defined.

(** The state sequential code runs on. *)
Record world := mkWorld {
  srv : server;
  heap : gmap positive (list (option peer));
  trace : list event
}.

(** ** The state monad *)

Definition M (A : Type) : Type := world → A * world.

Global Instance M_ret : MRet M := λ A a w, (a, w).

Global Instance M_bind : MBind M :=
  λ A B k c w, let (a, w') := c w in k a w'.

Definition ret {A} (a : A) : M A := mret a.

Definition get_srv : M server := λ w, (srv w, w).

Definition modify_srv (f : server → server) : M unit :=
  λ w, (tt, mkWorld (f (srv w)) (heap w) (trace w)).

Definition emit (e : event) : M unit :=
  λ w, (tt, mkWorld (srv w) (heap w) (trace w ++ [e])).

Definition exec {A} (c : M A) (w : world) : world := (c w).2.

Definition result {A} (c : M A) (w : world) : A := (c w).1.

(** The effects a computation adds to the log. *)
Definition events_of {A} (c : M A) (w : world) : list event :=
  drop (length (trace w)) (trace (exec c w)).

(** Field updates of the [server] struct. *)
Definition set_started (v : Z) (s : server) : server :=
  mkServer v (shutdown s) (identityPriv s) (listeners s) (peers s)
    (chanIndex s) (newPeers s) (donePeers s) (wg s) (quit s).

Definition set_shutdown (v : Z) (s : server) : server :=
  mkServer (started s) v (identityPriv s) (listeners s) (peers s)
    (chanIndex s) (newPeers s) (donePeers s) (wg s) (quit s).

Definition set_peers (m : gmap Z peer) (s : server) : server :=
  mkServer (started s) (shutdown s) (identityPriv s) (listeners s) m
    (chanIndex s) (newPeers s) (donePeers s) (wg s) (quit s).

Definition set_newPeers (q : list peer) (s : server) : server :=
  mkServer (started s) (shutdown s) (identityPriv s) (listeners s) (peers s)
    (chanIndex s) q (donePeers s) (wg s) (quit s).

Definition set_donePeers (q : list peer) (s : server) : server :=
  mkServer (started s) (shutdown s) (identityPriv s) (listeners s) (peers s)
    (chanIndex s) (newPeers s) q (wg s) (quit s).

Definition set_wg (v : Z) (s : server) : server :=
  mkServer (started s) (shutdown s) (identityPriv s) (listeners s) (peers s)
    (chanIndex s) (newPeers s) (donePeers s) v (quit s).

Definition set_quit (b : bool) (s : server) : server :=
  mkServer (started s) (shutdown s) (identityPriv s) (listeners s) (peers s)
    (chanIndex s) (newPeers s) (donePeers s) (wg s) b.

(** ** Construction and lifecycle *)

(** [newServer], after the identity key was read and every listener opened. *)
Definition newServer (privKey : Z) (ls : list Listener) : server :=
  mkServer 0 0 privKey ls ∅ ∅ [] [] 0 false.

Definition initWorld (privKey : Z) (ls : list Listener) : world :=
  mkWorld (newServer privKey ls) ∅ [].

(** [atomic.AddInt32(&s.started, 1)] *)
Definition addStarted : M Z :=
  s ← get_srv;
  let n := wrap32 (started s + 1) in
  modify_srv (set_started n);;
  ret n.

(** [atomic.AddInt32(&s.shutdown, 1)] *)
Definition addShutdown : M Z :=
  s ← get_srv;
  let n := wrap32 (shutdown s + 1) in
  modify_srv (set_shutdown n);;
  ret n.

(** [s.wg.Add(n)]; [s.wg.Done()] is [wgAdd (-1)]. *)
Definition wgAdd (n : Z) : M unit :=
  modify_srv (λ s, set_wg (wg s + n) s).

(** The loop of [Start] over the listeners. *)
Fixpoint startListeners (ls : list Listener) : M unit :=
  match ls with
  | [] => ret tt
  | l :: ls' => wgAdd 1;; emit (EvGo (GoListener l));; startListeners ls'
  end.

Definition Start : M unit :=
  n ← addStarted;
  if decide (n ≠ 1) then ret tt
  else
    s ← get_srv;
    startListeners (listeners s);;
    emit EvFundingMgrStart;;
    wgAdd 2;;
    emit (EvGo GoPeerManager);;
    emit (EvGo GoQueryHandler).

(** The loop of [Stop] over the listeners: the first [Close()] that fails
    ends it with that error. *)
Fixpoint closeListeners (ls : list Listener) : M (option error) :=
  match ls with
  | [] => ret None
  | l :: ls' =>
      emit (EvListenerClose l);;
      match l_close l with
      | Some e => ret (Some e)
      | None => closeListeners ls'
      end
  end.

(** How a call ends: it returns an error or [nil], or it panics. *)
Inductive outcome :=
| Returns (e : option error)
| Panics.

Global Instance outcome_eq_dec : EqDecision outcome.
Proof. solve_decision. Defined.

(** [Stop]; [close(s.quit)] panics when [quit] is already closed, and
    [EvWgWait] marks the call entering [s.wg.Wait()]. *)
Definition Stop : M outcome :=
  n ← addShutdown;
  if decide (n ≠ 1) then ret (Returns None)
  else
    s ← get_srv;
    r ← closeListeners (listeners s);
    match r with
    | Some e => ret (Returns (Some e))
    | None =>
        emit EvRpcServerStop;;
        emit EvWalletShutdown;;
        emit EvFundingMgrStop;;
        emit EvCloseQuit;;
        if quit s then ret Panics
        else
          modify_srv (set_quit true);;
          emit EvWgWait;;
          ret (Returns None)
    end.

(** ** The registry *)

Definition addPeer (p : option peer) : M unit :=
  match p with
  | None => ret tt
  | Some p =>
      s ← get_srv;
      if decide (shutdown s ≠ 0) then emit (EvPeerStop p)
      else modify_srv (λ s, set_peers (<[peer_id p := p]> (peers s)) s)
  end.

Definition removePeer (p : option peer) : M unit :=
  match p with
  | None => ret tt
  | Some p =>
      s ← get_srv;
      if decide (shutdown s ≠ 0) then emit (EvPeerStop p)
      else modify_srv (λ s, set_peers (delete (peer_id p) (peers s)) s)
  end.

(** ** Slices *)

(** [make([]*peer, 0, n)]: a new backing array of [n] nil pointers. *)
Definition make (n : nat) : M slice :=
  λ w, let a := fresh (dom (heap w)) in
       (mkSlice a 0 n,
        mkWorld (srv w) (<[a := replicate n None]> (heap w)) (trace w)).

(** [append(s, x)]: writes in place while there is capacity, otherwise moves
    the elements to a new array of twice the capacity (at least one). *)
Definition append (s : slice) (x : peer) : M slice :=
  λ w, if decide (s_len s < s_cap s)%nat then
         (mkSlice (s_arr s) (S (s_len s)) (s_cap s),
          mkWorld (srv w)
            (alter (λ arr, <[s_len s := Some x]> arr) (s_arr s) (heap w))
            (trace w))
       else
         let a := fresh (dom (heap w)) in
         let c := Nat.max 1 (2 * s_cap s) in
         let old := take (s_len s) (default [] (heap w !! s_arr s)) in
         (mkSlice a (S (s_len s)) c,
          mkWorld (srv w)
            (<[a := old ++ Some x :: replicate (c - S (s_len s)) None]> (heap w))
            (trace w)).

(** The elements a slice header shows. *)
Definition slice_elems (h : gmap positive (list (option peer))) (s : slice)
  : list (option peer) :=
  take (s_len s) (default [] (h !! s_arr s)).

(** ** Ranging over the registry *)

(** Go ranges over a map in an order it does not specify: some enumeration
    of the entries. *)
Record MapOrder := mkMapOrder {
  range_of : gmap Z peer → list (Z * peer);
  range_of_perm : ∀ m, range_of m ≡ₚ map_to_list m
}.

(** The enumeration by increasing key encoding. *)
Definition default_order : MapOrder :=
  mkMapOrder map_to_list (λ m, reflexivity (map_to_list m)).

(** ** Collaborators of the dialer and the listeners *)

(** An [lndc] connection: the endpoint and the remote identity it was
    authenticated against. *)
Record Conn := mkConn {
  c_ipAddr : string;
  c_remoteId : list Z
}.

(** What the transport and the peer constructor answer: [conn.Dial] returns
    an error or [nil]; [newPeer] a peer or an error. *)
Record Env := mkEnv {
  conn_Dial : Z → string → list Z → option error;
  newPeer : Conn → bool → peer + error
}.

(** ** Query handlers *)

(** The loop of [handleListPeers]. *)
Fixpoint appendAll (ps : slice) (l : list (Z * peer)) : M slice :=
  match l with
  | [] => ret ps
  | (_, p) :: l' => ps' ← append ps p; appendAll ps' l'
  end.

Definition handleListPeers (ord : MapOrder) (msg : listPeersMsg) : M unit :=
  s ← get_srv;
  ps ← make (size (peers s));
  ps ← appendAll ps (range_of ord (peers s));
  emit (EvSendPeers (lp_resp msg) ps).

(** [fmt.Errorf("already connected to peer: %v", peer.lightningAddr)] *)
Definition alreadyConnected (a : LNAdr) : error :=
  "already connected to peer: " +:+ LNAdr_String a.

(** The loop of [handleConnectPeer] over the registry: it has no [break] and
    no [return]. *)
Fixpoint rejectMatches (msg : connectPeerMsg) (l : list (Z * peer)) : M unit :=
  match l with
  | [] => ret tt
  | (_, p) :: l' =>
      (if decide (LNAdr_String (lightningAddr p) = LNAdr_String (addr msg))
       then
         emit (EvSendErr (err msg) (Some (alreadyConnected (lightningAddr p))));;
         emit (EvSendResp (resp msg) (-1))
       else ret tt);;
      rejectMatches msg l'
  end.

Definition handleConnectPeer (ord : MapOrder) (msg : connectPeerMsg) : M unit :=
  s ← get_srv;
  rejectMatches msg (range_of ord (peers s));;
  emit (EvGo (GoDial msg)).

(** The type switch of [queryHandler] on the query it received. *)
Definition handleQuery (ord : MapOrder) (q : query) : M unit :=
  match q with
  | QConnectPeer msg => handleConnectPeer ord msg
  | QListPeers msg => handleListPeers ord msg
  | QOther => ret tt
  end.

(** [s.newPeers <- peer]; the send completes once the queue has room. *)
Definition sendNewPeers (p : peer) : M unit :=
  emit (EvSendNewPeers p);;
  modify_srv (λ s, set_newPeers (newPeers s ++ [p]) s).

(** The remote identity of the handshake: the compressed public key when the
    address has one, the script address otherwise. *)
Definition remoteIdOf (a : LNAdr) : list Z :=
  match PubKey a with
  | None => Base58Adr a
  | Some k => k
  end.

(** The goroutine launched by [handleConnectPeer]. *)
Definition dialPeer (env : Env) (msg : connectPeerMsg) : M unit :=
  let remoteId := remoteIdOf (addr msg) in
  let ipAddr := NetAddr (addr msg) in
  s ← get_srv;
  emit (EvDial (identityPriv s) ipAddr remoteId);;
  match conn_Dial env (identityPriv s) ipAddr remoteId with
  | Some e =>
      emit (EvSendErr (err msg) (Some e));;
      emit (EvSendResp (resp msg) (-1))
  | None =>
      match newPeer env (mkConn ipAddr remoteId) false with
      | inr e =>
          emit (EvSendResp (resp msg) (-1));;
          emit (EvSendErr (err msg) (Some e))
      | inl p =>
          emit (EvPeerStart p);;
          sendNewPeers p;;
          emit (EvSendResp (resp msg) (peer_id p));;
          emit (EvSendErr (err msg) None)
      end
  end.

(** One turn of the loop of [listener], given what [Accept()] returned. *)
Definition listenerAccept (env : Env) (acc : Conn + error) : M unit :=
  match acc with
  | inr _ => ret tt
  | inl conn =>
      match newPeer env conn true with
      | inr _ => ret tt
      | inl p => emit (EvPeerStart p);; sendNewPeers p
      end
  end.

(** ** The peer manager *)

(** The [newPeers] case of the [select] of [peerManager]; it is ready when
    the queue holds a peer. *)
Definition managerNewPeer : M unit :=
  s ← get_srv;
  match newPeers s with
  | [] => ret tt
  | p :: q => modify_srv (set_newPeers q);; addPeer (Some p)
  end.

(** The [donePeers] case. *)
Definition managerDonePeer : M unit :=
  s ← get_srv;
  match donePeers s with
  | [] => ret tt
  | p :: q => modify_srv (set_donePeers q);; removePeer (Some p)
  end.

(** ** The goroutines *)

(** Where a [queryHandler] goroutine is: at its [select]; inside
    [handleListPeers], at the send on the reply channel; returned. *)
Inductive handler_pc :=
| HSelect
| HReply (c : chan) (sl : slice)
| HDone.

(** Where a [listener] goroutine is: at the head of its loop; inside
    [Accept()]; returned. *)
Inductive accepter_pc :=
| ALoop
| AAccept
| ADone.

(** Where the caller of [Peers()] is: outside the call; at the send on
    [queries], with the reply channel it made; at the receive on that
    channel; returned with a slice. *)
Inductive caller_pc :=
| CIdle
| CSend (c : chan)
| CRecv (c : chan)
| CReturned (sl : slice).

Global Instance handler_pc_eq_dec : EqDecision handler_pc.
Proof. solve_decision. Defined.

Global Instance accepter_pc_eq_dec : EqDecision accepter_pc.
Proof. solve_decision. Defined.

Global Instance caller_pc_eq_dec : EqDecision caller_pc.
Proof. solve_decision. Defined.

(** The server with its goroutines: the [queryHandler], [peerManager]
    ([true] while in its loop) and [listener] goroutines in the order they
    were launched, the dial goroutines not yet run, one caller of [Peers()],
    the number of calls of [Stop] inside [s.wg.Wait()], and what the calls
    of [Stop] that returned have returned. *)
Record sys := mkSys {
  st : world;
  handlers : list handler_pc;
  managers : list bool;
  accepters : list (Listener * accepter_pc);
  dialers : list connectPeerMsg;
  caller : caller_pc;
  waiters : nat;
  stopReturns : list (option error)
}.

Definition set_st (w : world) (σ : sys) : sys :=
  mkSys w (handlers σ) (managers σ) (accepters σ) (dialers σ) (caller σ)
    (waiters σ) (stopReturns σ).

Definition set_handlers (hs : list handler_pc) (σ : sys) : sys :=
  mkSys (st σ) hs (managers σ) (accepters σ) (dialers σ) (caller σ)
    (waiters σ) (stopReturns σ).

Definition set_managers (ms : list bool) (σ : sys) : sys :=
  mkSys (st σ) (handlers σ) ms (accepters σ) (dialers σ) (caller σ)
    (waiters σ) (stopReturns σ).

Definition set_accepters (acs : list (Listener * accepter_pc)) (σ : sys) : sys :=
  mkSys (st σ) (handlers σ) (managers σ) acs (dialers σ) (caller σ)
    (waiters σ) (stopReturns σ).

Definition set_dialers (ds : list connectPeerMsg) (σ : sys) : sys :=
  mkSys (st σ) (handlers σ) (managers σ) (accepters σ) ds (caller σ)
    (waiters σ) (stopReturns σ).

Definition set_caller (c : caller_pc) (σ : sys) : sys :=
  mkSys (st σ) (handlers σ) (managers σ) (accepters σ) (dialers σ) c
    (waiters σ) (stopReturns σ).

Definition set_waiters (n : nat) (σ : sys) : sys :=
  mkSys (st σ) (handlers σ) (managers σ) (accepters σ) (dialers σ) (caller σ)
    n (stopReturns σ).

Definition set_stopReturns (rs : list (option error)) (σ : sys) : sys :=
  mkSys (st σ) (handlers σ) (managers σ) (accepters σ) (dialers σ) (caller σ)
    (waiters σ) rs.

Definition set_chanIndex (m : gmap OutPoint peer) (s : server) : server :=
  mkServer (started s) (shutdown s) (identityPriv s) (listeners s) (peers s)
    m (newPeers s) (donePeers s) (wg s) (quit s).

Definition initSys (privKey : Z) (ls : list Listener) : sys :=
  mkSys (initWorld privKey ls) [] [] [] [] CIdle 0 [].

(** A [go] statement adds a goroutine. *)
Definition spawnOne (σ : sys) (ev : event) : sys :=
  match ev with
  | EvGo (GoListener l) => set_accepters (accepters σ ++ [(l, ALoop)]) σ
  | EvGo GoPeerManager => set_managers (managers σ ++ [true]) σ
  | EvGo GoQueryHandler => set_handlers (handlers σ ++ [HSelect]) σ
  | EvGo (GoDial msg) => set_dialers (dialers σ ++ [msg]) σ
  | _ => σ
  end.

Definition spawn (evs : list event) (σ : sys) : sys := foldl spawnOne σ evs.

(** Running a piece of sequential code in one step. *)
Definition runCode {A} (c : M A) (σ : sys) : sys :=
  spawn (events_of c (st σ)) (set_st (exec c (st σ)) σ).

(** Whether a piece of code sends on [newPeers]; it can only complete when
    the channel has room. *)
Definition publishes (evs : list event) : bool :=
  existsb (λ ev, match ev with EvSendNewPeers _ => true | _ => false end) evs.

Definition canRun {A} (c : M A) (σ : sys) : bool :=
  negb (publishes (events_of c (st σ)))
  || bool_decide (length (newPeers (srv (st σ))) < chanCap)%nat.

(** The moves of the system. *)
Inductive label :=
| LStart
| LStop
| LStopReturn
| LPeers (c : chan)
| LQueryList (i : nat)
| LReply (i : nat)
| LQueryConnect (i : nat) (msg : connectPeerMsg)
| LQueryOther (i : nat)
| LHandlerQuit (i : nat)
| LDial (k : nat)
| LManagerNew (j : nat)
| LManagerDone (j : nat)
| LManagerQuit (j : nat)
| LAcceptEnter (k : nat)
| LAccept (k : nat) (acc : Conn + error)
| LAcceptExit (k : nat)
| LPeerDone (p : peer)
| LIndexChannel (op : OutPoint) (p : peer).

(** One move.  [LStart] and [LStop] are calls of [Start()] and [Stop()], the
    latter up to [s.wg.Wait()], which [LStopReturn] leaves once the counter
    is zero; a panic ends the process, which then has no further state.
    [LPeers c] is the caller entering [Peers()]; the unbuffered [queries]
    channel hands its message over when a [queryHandler] is at its [select]
    ([LQueryList]), and the unbuffered reply channel when the caller is at
    its receive ([LReply]).  [LQueryConnect] and [LQueryOther] are queries
    of other callers, the latter of a type the switch has no case for.  The
    [quit] cases of the two [select]s are ready once [quit] is closed.
    [LPeerDone] and [LIndexChannel] are moves of code outside this file: a
    peer reporting itself finished on [donePeers], and (modelled from the
    spec) the funding collaborator recording the channel of a registered
    peer in [chanIndex]. *)
Definition step (env : Env) (ord : MapOrder) (l : label) (σ : sys)
  : option sys :=
  let s := srv (st σ) in
  match l with
  | LStart => Some (runCode Start σ)
  | LStop =>
      match result Stop (st σ) with
      | Panics => None
      | Returns r =>
          if decide (EvWgWait ∈ events_of Stop (st σ))
          then Some (set_waiters (S (waiters σ)) (runCode Stop σ))
          else Some (set_stopReturns (stopReturns σ ++ [r]) (runCode Stop σ))
      end
  | LStopReturn =>
      match waiters σ with
      | O => None
      | S n =>
          if decide (wg s = 0)
          then Some (set_stopReturns (stopReturns σ ++ [None])
                       (set_waiters n σ))
          else None
      end
  | LPeers c =>
      match caller σ with
      | CIdle | CReturned _ => Some (set_caller (CSend c) σ)
      | _ => None
      end
  | LQueryList i =>
      match handlers σ !! i, caller σ with
      | Some HSelect, CSend c =>
          let σ' :=
            runCode (handleQuery ord (QListPeers (mkListPeersMsg c))) σ in
          match last (trace (st σ')) with
          | Some (EvSendPeers _ sl) =>
              Some (set_caller (CRecv c)
                      (set_handlers (<[i := HReply c sl]> (handlers σ')) σ'))
          | _ => None
          end
      | _, _ => None
      end
  | LReply i =>
      match handlers σ !! i, caller σ with
      | Some (HReply c sl), CRecv c' =>
          if decide (c = c')
          then Some (set_caller (CReturned sl)
                       (set_handlers (<[i := HSelect]> (handlers σ)) σ))
          else None
      | _, _ => None
      end
  | LQueryConnect i msg =>
      match handlers σ !! i with
      | Some HSelect => Some (runCode (handleQuery ord (QConnectPeer msg)) σ)
      | _ => None
      end
  | LQueryOther i =>
      match handlers σ !! i with
      | Some HSelect => Some (runCode (handleQuery ord QOther) σ)
      | _ => None
      end
  | LHandlerQuit i =>
      match handlers σ !! i with
      | Some HSelect =>
          if quit s
          then Some (set_handlers (<[i := HDone]> (handlers σ))
                       (runCode (wgAdd (-1)) σ))
          else None
      | _ => None
      end
  | LDial k =>
      match dialers σ !! k with
      | Some msg =>
          if canRun (dialPeer env msg) σ
          then Some (set_dialers (delete k (dialers σ))
                       (runCode (dialPeer env msg) σ))
          else None
      | None => None
      end
  | LManagerNew j =>
      match managers σ !! j, newPeers s with
      | Some true, _ :: _ => Some (runCode managerNewPeer σ)
      | _, _ => None
      end
  | LManagerDone j =>
      match managers σ !! j, donePeers s with
      | Some true, _ :: _ => Some (runCode managerDonePeer σ)
      | _, _ => None
      end
  | LManagerQuit j =>
      match managers σ !! j with
      | Some true =>
          if quit s
          then Some (set_managers (<[j := false]> (managers σ))
                       (runCode (wgAdd (-1)) σ))
          else None
      | _ => None
      end
  | LAcceptEnter k =>
      match accepters σ !! k with
      | Some (ln, ALoop) =>
          if decide (shutdown s = 0)
          then Some (set_accepters (<[k := (ln, AAccept)]> (accepters σ)) σ)
          else None
      | _ => None
      end
  | LAccept k acc =>
      match accepters σ !! k with
      | Some (ln, AAccept) =>
          if canRun (listenerAccept env acc) σ
          then Some (set_accepters (<[k := (ln, ALoop)]> (accepters σ))
                       (runCode (listenerAccept env acc) σ))
          else None
      | _ => None
      end
  | LAcceptExit k =>
      match accepters σ !! k with
      | Some (ln, ALoop) =>
          if decide (shutdown s = 0) then None
          else Some (set_accepters (<[k := (ln, ADone)]> (accepters σ))
                       (runCode (wgAdd (-1)) σ))
      | _ => None
      end
  | LPeerDone p =>
      if decide (length (donePeers s) < chanCap)%nat
      then Some (set_st (mkWorld (set_donePeers (donePeers s ++ [p]) s)
                           (heap (st σ)) (trace (st σ))) σ)
      else None
  | LIndexChannel op p =>
      if decide (peers s !! peer_id p = Some p)
      then Some (set_st (mkWorld (set_chanIndex (<[op := p]> (chanIndex s)) s)
                           (heap (st σ)) (trace (st σ))) σ)
      else None
  end.

(** A sequence of moves. *)
Fixpoint run (env : Env) (ord : MapOrder) (ls : list label) (σ : sys)
  : option sys :=
  match ls with
  | [] => Some σ
  | l :: ls' =>
      match step env ord l σ with
      | Some σ' => run env ord ls' σ'
      | None => None
      end
  end.

(** Every entry of the outpoint index refers to a peer whose id is in the
    peer map. *)
Definition chan_inv (s : server) : Prop :=
  map_Forall (λ _ q, is_Some (peers s !! peer_id q)) (chanIndex s).

(** The replies to list queries in a log. *)
Definition isListReply (ev : event) : bool :=
  match ev with EvSendPeers _ _ => true | _ => false end.

Definition listReplies (tr : list event) : list event :=
  filter (λ ev, isListReply ev) tr.

(** ** Vocabulary of the statements *)

(** The registry stores every peer under its own id ([addPeer] is the only
    writer of the map). *)
Definition peers_keyed (s : server) : Prop :=
  ∀ k p, peers s !! k = Some p → peer_id p = k.

(** The listeners the loop of [Stop] calls [Close()] on: up to and including
    the first one that fails. *)
Fixpoint closedBy (ls : list Listener) : list Listener :=
  match ls with
  | [] => []
  | l :: ls' =>
      l :: match l_close l with Some _ => [] | None => closedBy ls' end
  end.

(** The error of the first listener that fails to close. *)
Fixpoint closeError (ls : list Listener) : option error :=
  match ls with
  | [] => None
  | l :: ls' =>
      match l_close l with Some e => Some e | None => closeError ls' end
  end.

(** The teardown steps of [Stop] after the listeners; the wait is entered
    when [quit] was still open. *)
Definition teardownTail (closed : bool) : list event :=
  [EvRpcServerStop; EvWalletShutdown; EvFundingMgrStop; EvCloseQuit]
    ++ if closed then [] else [EvWgWait].

(** How [Stop] ends, from the error of the listeners and the state of
    [quit]. *)
Definition stopOutcome (r : option error) (closed : bool) : outcome :=
  match r with
  | Some e => Returns (Some e)
  | None => if closed then Panics else Returns None
  end.

(** What the scan of [handleConnectPeer] sends for the entries it visits. *)
Definition rejectEvents (msg : connectPeerMsg) (l : list (Z * peer))
  : list event :=
  flat_map (λ kp,
    if decide (LNAdr_String (lightningAddr kp.2) = LNAdr_String (addr msg))
    then [EvSendErr (err msg) (Some (alreadyConnected (lightningAddr kp.2)));
          EvSendResp (resp msg) (-1)]
    else []) l.

(** The goroutines a log of effects launches, by kind. *)
Definition launchedHandlers (evs : list event) : list handler_pc :=
  omap (λ ev, match ev with EvGo GoQueryHandler => Some HSelect | _ => None end)
    evs.

Definition launchedManagers (evs : list event) : list bool :=
  omap (λ ev, match ev with EvGo GoPeerManager => Some true | _ => None end)
    evs.

Definition launchedAccepters (evs : list event)
  : list (Listener * accepter_pc) :=
  omap (λ ev, match ev with
              | EvGo (GoListener l) => Some (l, ALoop)
              | _ => None
              end) evs.

Definition launchedDialers (evs : list event) : list connectPeerMsg :=
  omap (λ ev, match ev with EvGo (GoDial msg) => Some msg | _ => None end) evs.

(** Effects that launch no goroutine and answer no list query. *)
Definition plainEvent (ev : event) : bool :=
  match ev with
  | EvGo _ | EvSendPeers _ _ => false
  | _ => true
  end.

(** Code that only logs plain effects and leaves the wait group and the
    outpoint index alone. *)
Definition plain {A} (c : M A) : Prop :=
  ∀ w, ∃ evs,
    trace (exec c w) = trace w ++ evs
    ∧ forallb plainEvent evs = true
    ∧ wg (srv (exec c w)) = wg (srv w)
    ∧ chanIndex (srv (exec c w)) = chanIndex (srv w).

(** The effects of the call of [Start] that launches the goroutines. *)
Definition startEvents (ls : list Listener) : list event :=
  (EvGo ∘ GoListener <$> ls)
    ++ [EvFundingMgrStart; EvGo GoPeerManager; EvGo GoQueryHandler].

(** Goroutines that have not returned. *)
Definition aliveHandler (h : handler_pc) : bool :=
  match h with HDone => false | _ => true end.

Definition aliveAccepter (a : Listener * accepter_pc) : bool :=
  match a.2 with ADone => false | _ => true end.

Fixpoint countb {A} (f : A → bool) (l : list A) : nat :=
  match l with
  | [] => 0
  | x :: l' => (if f x then 1 else 0) + countb f l'
  end.

Definition alive (σ : sys) : nat :=
  (countb aliveHandler (handlers σ) + countb (λ b : bool, b) (managers σ)
   + countb aliveAccepter (accepters σ))%nat.

(** What holds in every state the system reaches: the wait group counts the
    goroutines that have not returned, and while the caller waits for its
    reply some [queryHandler] is at the send of that reply. *)
Definition sys_inv (σ : sys) : Prop :=
  wg (srv (st σ)) = Z.of_nat (alive σ)
  ∧ ∀ c, caller σ = CRecv c →
         ∃ i sl, handlers σ !! i = Some (HReply c sl).

(** No [queryHandler] is left, and the caller is not waiting for a reply. *)
Definition no_handler (σ : sys) : Prop :=
  Forall (λ h, h = HDone) (handlers σ) ∧ ∀ c, caller σ ≠ CRecv c.

(** The outpoint index is the same and no id has left the peer map. *)
Definition grows (w w' : world) : Prop :=
  chanIndex (srv w') = chanIndex (srv w)
  ∧ ∀ k, is_Some (peers (srv w) !! k) → is_Some (peers (srv w') !! k).

(** Every entry of the peer map after is an entry before or a peer stored
    under its own id. *)
Definition registers (w w' : world) : Prop :=
  ∀ k p, peers (srv w') !! k = Some p →
         peers (srv w) !! k = Some p ∨ peer_id p = k.

(** [n] calls of [Stop] in a row. *)
Definition StopN (n : N) : world → world := N.iter n (exec Stop).

(** ** Sample states *)

Definition lnOk : Listener := mkListener "127.0.0.1:10011" None.

Definition lnBad : Listener := mkListener "127.0.0.1:10012" (Some "close failed").

Definition adrX : LNAdr :=
  mkLNAdr None [1; 2; 3] "10.0.0.1:10011" "X@10.0.0.1:10011".

Definition adrY : LNAdr :=
  mkLNAdr (Some [2; 7; 7]) [] "10.0.0.2:10011" "Y@10.0.0.2:10011".

Definition peerA : peer := mkPeer 1 7 adrX.
Definition peerB : peer := mkPeer 2 8 adrY.
Definition peerC : peer := mkPeer 3 9 adrX.
Definition peerA' : peer := mkPeer 4 7 adrY.

(** A running server with [peerA] registered. *)
Definition worldA : world :=
  mkWorld (set_peers {[ 7 := peerA ]} (newServer 5 [lnOk])) ∅ [].

(** A running server with [peerA] and [peerB] registered. *)
Definition worldAB : world :=
  mkWorld (set_peers (<[ 8 := peerB ]> {[ 7 := peerA ]}) (newServer 5 [lnOk]))
    ∅ [].

(** The same server once the shutdown flag is set. *)
Definition worldAB_down : world :=
  mkWorld (set_shutdown 1 (srv worldAB)) ∅ [].

(** A server with two peers at the same address. *)
Definition worldAC : world :=
  mkWorld (set_peers (<[ 9 := peerC ]> {[ 7 := peerA ]}) (newServer 5 [lnOk]))
    ∅ [].

Definition msgX : connectPeerMsg := mkConnectPeerMsg adrX 10 11.

(** A reachable endpoint: the dial succeeds and [newPeer] yields [peerC]. *)
Definition envUp : Env := mkEnv (λ _ _ _, None) (λ _ _, inl peerC).

(** An unreachable endpoint. *)
Definition envDown : Env :=
  mkEnv (λ _ _ _, Some "connection refused") (λ _ _, inr "no connection").

(** The sends logged on a channel. *)
Definition isSendOn (c : chan) (ev : event) : bool :=
  match ev with
  | EvSendErr c' _ | EvSendResp c' _ | EvSendPeers c' _ => bool_decide (c' = c)
  | _ => false
  end.

Definition sendsOn (c : chan) (tr : list event) : list event :=
  filter (λ ev, isSendOn c ev) tr.

(** An inbound connection, and a run in which it becomes the registered
    peer [peerC], the funding collaborator records a channel for it, and the
    peer then reports itself finished. *)
Definition connIn : Conn := mkConn "10.0.0.1:51000" [1; 2; 3].

Definition indexRun : list label :=
  [LStart; LAcceptEnter 0; LAccept 0 (inl connIn); LManagerNew 0;
   LIndexChannel (1%N, 0%N) peerC; LPeerDone peerC].

Definition sysIndexed : sys :=
  default (initSys 5 [lnOk])
    (run envUp default_order indexRun (initSys 5 [lnOk])).

Definition sysRemoved : sys :=
  default sysIndexed (step envUp default_order (LManagerDone 0) sysIndexed).

(** A run in which [Stop] returns the error of a listener and a caller of
    [Peers()] is then served. *)
Definition servedRun : list label :=
  [LStart; LStop; LPeers 20; LQueryList 0; LReply 0].

(** A run in which [Stop] goes through the whole teardown and returns. *)
Definition stoppedRun : list label :=
  [LStart; LStop; LAcceptExit 0; LManagerQuit 0; LHandlerQuit 0].

Definition sysServed : sys :=
  default (initSys 5 [lnBad])
    (run envUp default_order servedRun (initSys 5 [lnBad])).

Definition sysStopping : sys :=
  default (initSys 5 [lnOk])
    (run envUp default_order stoppedRun (initSys 5 [lnOk])).

Definition sysStopped : sys :=
  default sysStopping (step envUp default_order LStopReturn sysStopping).

(** After the return of [Stop]: another call of [Stop], a call of [Peers()],
    a peer reporting itself finished, another call of [Start]. *)
Definition lateRun : list label := [LPeerDone peerA; LStart].

Definition sysBlocked : sys :=
  default sysStopped
    (run envUp default_order ([LStop] ++ LPeers 20 :: lateRun) sysStopped).

(** ** Construction with its collaborators *)

(** How a call that can fail ends: with a value, with an error, or in a
    panic. *)
Inductive res (A : Type) :=
| Ok (a : A)
| Err (e : error)
| Panicked.

Arguments Ok {A} a.
Arguments Err {A} e.
Arguments Panicked {A}.

(** What the address manager of the wallet holds for an address: a
    [ManagedPubKeyAddress], with its public key and what its [PrivKey()]
    returns, or an address of another kind, on which the type assertion of
    [getIdentityPrivKey] panics. *)
Inductive ManagedAddress :=
| ManagedPubKeyAddress (pub : list Z) (priv : Z + error)
| ManagedOtherAddress.

(** The channel database and the wallet as [getIdentityPrivKey] uses them:
    what [c.GetIdAdr()] and [w.Manager.Address(adr)] return. *)
Record KeyStore := mkKeyStore {
  GetIdAdr : string + error;
  ManagerAddress : string → ManagedAddress + error
}.

(** The calls made on collaborators while the server is built, in program
    order. *)
Inductive cevent :=
| CGetIdAdr
| CManagerAddress (adr : string)
| CPrivKey
| CNewListener (privKey : Z) (addr : string)
| CNewFundingManager
| CNewRpcServer.

Global Instance cevent_eq_dec : EqDecision cevent.
Proof. solve_decision. Defined.

Definition getIdentityPrivKey (ks : KeyStore) : res Z * list cevent :=
  match GetIdAdr ks with
  | inr e => (Err e, [CGetIdAdr])
  | inl adr =>
      match ManagerAddress ks adr with
      | inr e => (Err e, [CGetIdAdr; CManagerAddress adr])
      | inl ManagedOtherAddress =>
          (Panicked, [CGetIdAdr; CManagerAddress adr])
      | inl (ManagedPubKeyAddress pub priv) =>
          match priv with
          | inr e => (Err e, [CGetIdAdr; CManagerAddress adr; CPrivKey])
          | inl k => (Ok k, [CGetIdAdr; CManagerAddress adr; CPrivKey])
          end
      end
  end.

(** The loop of [newServer] over the listen addresses; [listen] is what
    [lndc.NewListener] returns. *)
Fixpoint openListeners (listen : Z → string → Listener + error) (privKey : Z)
    (listenAddrs : list string) : (list Listener + error) * list cevent :=
  match listenAddrs with
  | [] => (inl [], [])
  | a :: rest =>
      match listen privKey a with
      | inr e => (inr e, [CNewListener privKey a])
      | inl l =>
          let (r, log) := openListeners listen privKey rest in
          (match r with inl ls => inl (l :: ls) | inr e => inr e end,
           CNewListener privKey a :: log)
      end
  end.

(** [newServer] as called, from the key retrieval on; [newServer] above is
    the struct it builds at the end. *)
Definition newServerCall (ks : KeyStore)
    (listen : Z → string → Listener + error) (listenAddrs : list string)
  : res server * list cevent :=
  match getIdentityPrivKey ks with
  | (Ok privKey, log) =>
      match openListeners listen privKey listenAddrs with
      | (inl ls, log') =>
          (Ok (newServer privKey ls),
           log ++ log' ++ [CNewFundingManager; CNewRpcServer])
      | (inr e, log') => (Err e, log ++ log')
      end
  | (Err e, log) => (Err e, log)
  | (Panicked, log) => (Panicked, log)
  end.

(** The addresses [lndc.NewListener] was called on. *)
Definition listenedOn (log : list cevent) : list string :=
  omap (λ ev, match ev with CNewListener _ a => Some a | _ => None end) log.

(** ** Waiting for the shutdown *)

(** [WaitForShutdown]: [s.wg.Wait()] returns once the counter is zero; until
    then the call is blocked ([None]). *)
Definition WaitForShutdown (σ : sys) : option sys :=
  if decide (wg (srv (st σ)) = 0) then Some σ else None.

(** ** More vocabulary *)

(** The peer manager takes [n] peers from [newPeers], one after the other. *)
Fixpoint managerTakes (n : nat) : M unit :=
  match n with
  | O => ret tt
  | S n' => managerNewPeer;; managerTakes n'
  end.

(** Storing peers one after the other, each under its id. *)
Definition registerAll (q : list peer) (m : gmap Z peer) : gmap Z peer :=
  foldl (λ m p, <[peer_id p := p]> m) m q.





Definition isPeerStop (ev : event) : bool :=
  match ev with EvPeerStop _ => true | _ => false end.

(** The slice a list query was answered with, read back from the heap. *)
Definition replyPeers (w : world) (sl : slice) : list (option peer) :=
  slice_elems (heap w) sl.

(** A key store that yields the key 5, and one whose database fails. *)
Definition ksGood : KeyStore :=
  mkKeyStore (inl "idadr")
    (λ _, inl (ManagedPubKeyAddress [2; 9; 9] (inl 5))).

Definition ksNoDb : KeyStore :=
  mkKeyStore (inr "no identity address") (λ _, inr "unused").

(** Listening fails on port 10012 only. *)
Definition listenSome (privKey : Z) (a : string) : Listener + error :=
  if decide (a = "127.0.0.1:10012") then inr "address in use"
  else inl (mkListener a None).


(** A running server with two peers waiting in [newPeers], the second under
    the id of [peerA]. *)
Definition worldQueued : world :=
  mkWorld (set_newPeers [peerC; peerA'] (srv worldA)) ∅ [].

(** The same once the shutdown flag is set. *)
Definition worldQueued_down : world :=
  mkWorld (set_shutdown 1 (srv worldQueued)) ∅ [].

(** No goroutine has returned, the shutdown flag is clear and [quit] is
    open. *)
Definition all_running (σ : sys) : Prop :=
  shutdown (srv (st σ)) = 0
  ∧ quit (srv (st σ)) = false
  ∧ Forall (λ h, h ≠ HDone) (handlers σ)
  ∧ Forall (λ b, b = true) (managers σ)
  ∧ Forall (λ a, a.2 ≠ ADone) (accepters σ).

(** No call of [Stop] has been made. *)
Definition never_stopped (σ : sys) : Prop :=
  stopReturns σ = [] ∧ waiters σ = 0%nat.

(** Two listen addresses that can be opened, around one that cannot. *)
Definition addrsGood : list string := ["127.0.0.1:10011"; "127.0.0.1:10013"].

Definition addrsBad : list string :=
  ["127.0.0.1:10011"] ++ "127.0.0.1:10012" :: ["127.0.0.1:10013"].

(** A started server. *)
Definition sysStarted : sys :=
  default (initSys 5 [lnOk])
    (run envUp default_order [LStart] (initSys 5 [lnOk])).

(** A started server whose listener is inside [Accept()]. *)
Definition sysAccepting : sys :=
  default sysStarted (step envUp default_order (LAcceptEnter 0) sysStarted).




(** A call of [Peers()] and a call of [Stop] on a server never started. *)
Definition sysUnstarted : sys :=
  default (initSys 5 [lnOk])
    (run envUp default_order ([] ++ LPeers 20 :: [LStop]) (initSys 5 [lnOk])).

(** A connect request for an address no registered peer has. *)
Definition msgY : connectPeerMsg := mkConnectPeerMsg adrY 12 13.

(** * Properties *)

Ltac unfold_monad :=
  unfold events_of, exec, result, ret, get_srv, modify_srv, emit,
    mbind, M_bind, mret, M_ret in *.

Lemma drop_length_app {A} (l k : list A) : drop (length l) (l ++ k) = k.
Proof. by rewrite drop_app_length. Qed.

(** ** 32-bit counters *)

Lemma wrap32_range z : int32_range (wrap32 z).
Proof.
  unfold int32_range, wrap32.
  pose proof (Z.mod_pos_bound (z + 2 ^ 31) (2 ^ 32) ltac:(lia)). lia.
Qed.

Lemma wrap32_id z : int32_range z → wrap32 z = z.
Proof.
  unfold int32_range, wrap32. intros Hz.
  rewrite Z.mod_small; lia.
Qed.

Lemma wrap32_succ_one z : int32_range z → wrap32 (z + 1) = 1 ↔ z = 0.
Proof.
  unfold int32_range, wrap32. intros Hz. split; [|intros ->; reflexivity].
  intros H.
  destruct (decide (z = 2 ^ 31 - 1)) as [->|Hne]; [vm_compute in H; lia|].
  rewrite Z.mod_small in H; lia.
Qed.

Lemma wrap32_add_wrap a b : wrap32 (wrap32 a + b) = wrap32 (a + b).
Proof.
  unfold wrap32.
  replace (a + b + 2 ^ 31) with ((a + 2 ^ 31) + b) by lia.
  replace ((a + 2 ^ 31) mod 2 ^ 32 - 2 ^ 31 + b + 2 ^ 31)
    with ((a + 2 ^ 31) mod 2 ^ 32 + b) by lia.
  by rewrite Zplus_mod_idemp_l.
Qed.

(** ** The registry: [addPeer] and [removePeer] *)

Section registry.
Implicit Types (w : world) (p q : peer).

Lemma addPeer_nil w : exec (addPeer None) w = w.
Proof. reflexivity. Qed.

Lemma addPeer_shutdown w p :
  shutdown (srv w) ≠ 0 →
  exec (addPeer (Some p)) w
  = mkWorld (srv w) (heap w) (trace w ++ [EvPeerStop p]).
Proof. intros H. unfold addPeer. unfold_monad. by rewrite decide_True. Qed.

Lemma addPeer_running w p :
  shutdown (srv w) = 0 →
  exec (addPeer (Some p)) w
  = mkWorld (set_peers (<[peer_id p := p]> (peers (srv w))) (srv w))
      (heap w) (trace w).
Proof.
  intros H. unfold addPeer. unfold_monad. rewrite decide_False; [done|].
  intros ?; contradiction.
Qed.

Lemma removePeer_nil w : exec (removePeer None) w = w.
Proof. reflexivity. Qed.

Lemma removePeer_shutdown w p :
  shutdown (srv w) ≠ 0 →
  exec (removePeer (Some p)) w
  = mkWorld (srv w) (heap w) (trace w ++ [EvPeerStop p]).
Proof. intros H. unfold removePeer. unfold_monad. by rewrite decide_True. Qed.

Lemma removePeer_running w p :
  shutdown (srv w) = 0 →
  exec (removePeer (Some p)) w
  = mkWorld (set_peers (delete (peer_id p) (peers (srv w))) (srv w))
      (heap w) (trace w).
Proof.
  intros H. unfold removePeer. unfold_monad. rewrite decide_False; [done|].
  intros ?; contradiction.
Qed.

Lemma set_peers_same (s : server) : set_peers (peers s) s = s.
Proof. by destruct s. Qed.

Lemma world_eta w : mkWorld (srv w) (heap w) (trace w) = w.
Proof. by destruct w. Qed.
End registry.

(** C7. [addPeer(p)] does nothing when [p] is nil; with the shutdown flag set
    it stops the peer and leaves the peer map as it was, so the peer is not
    registered by the call; otherwise it stores [p] in the map under its id
    and leaves every other entry alone. *)
Theorem addPeer_spec (w : world) :
  exec (addPeer None) w = w
  ∧ (∀ p, shutdown (srv w) ≠ 0 →
       peers (srv (exec (addPeer (Some p)) w)) = peers (srv w)
       ∧ srv (exec (addPeer (Some p)) w) = srv w
       ∧ events_of (addPeer (Some p)) w = [EvPeerStop p])
  ∧ (∀ p, shutdown (srv w) = 0 →
       peers (srv (exec (addPeer (Some p)) w)) !! peer_id p = Some p
       ∧ (∀ k, k ≠ peer_id p →
            peers (srv (exec (addPeer (Some p)) w)) !! k = peers (srv w) !! k)
       ∧ events_of (addPeer (Some p)) w = []).
Proof.
  split; [apply addPeer_nil|]. split; intros p Hs.
  - unfold events_of. rewrite (addPeer_shutdown _ _ Hs). simpl.
    by rewrite drop_length_app.
  - unfold events_of. rewrite (addPeer_running _ _ Hs). simpl.
    split; [apply lookup_insert_eq|]. split.
    + intros k Hk. by rewrite lookup_insert_ne.
    + by rewrite drop_all.
Qed.

(** C8. [removePeer] with a peer whose id is not in the map leaves the map
    unchanged, silently (while running nothing at all changes and nothing is
    logged); removing twice is the same as removing once; with the shutdown
    flag set it stops the peer and does not touch the map. *)
Theorem removePeer_spec (w : world) (p : peer) :
  (peers (srv w) !! peer_id p = None →
     peers (srv (exec (removePeer (Some p)) w)) = peers (srv w))
  ∧ (shutdown (srv w) = 0 →
       (peers (srv w) !! peer_id p = None → exec (removePeer (Some p)) w = w)
       ∧ exec (removePeer (Some p)) (exec (removePeer (Some p)) w)
         = exec (removePeer (Some p)) w)
  ∧ (shutdown (srv w) ≠ 0 →
       srv (exec (removePeer (Some p)) w) = srv w
       ∧ events_of (removePeer (Some p)) w = [EvPeerStop p]).
Proof.
  assert (Hn : peers (srv w) !! peer_id p = None → shutdown (srv w) = 0 →
               exec (removePeer (Some p)) w = w).
  { intros Hnone Hs. rewrite (removePeer_running _ _ Hs).
    rewrite (delete_id _ _ Hnone), set_peers_same. apply world_eta. }
  split; [|split].
  - intros Hnone. destruct (decide (shutdown (srv w) = 0)) as [Hs|Hs].
    + by rewrite Hn.
    + by rewrite (removePeer_shutdown _ _ Hs).
  - intros Hs. split; [auto|].
    rewrite (removePeer_running _ _ Hs).
    rewrite removePeer_running by done. simpl.
    f_equal. unfold set_peers; simpl. f_equal. apply delete_delete_eq.
  - intros Hs. unfold events_of. rewrite (removePeer_shutdown _ _ Hs). simpl.
    by rewrite drop_length_app.
Qed.


(** ** Shutdown: [Stop] *)

Section stop.
Implicit Types (w : world) (ls : list Listener).

Lemma closeListeners_run ls w :
  closeListeners ls w
  = (closeError ls,
     mkWorld (srv w) (heap w) (trace w ++ (EvListenerClose <$> closedBy ls))).
Proof.
  revert w. induction ls as [|l ls IH]; intros w; simpl.
  - unfold_monad. by rewrite app_nil_r, world_eta.
  - unfold_monad. simpl. destruct (l_close l) as [e|].
    + done.
    + rewrite IH. simpl. by rewrite <- app_assoc.
Qed.

(** The call that takes the counter to 1 runs the teardown. *)
Lemma Stop_first w :
  wrap32 (shutdown (srv w) + 1) = 1 →
  Stop w
  = (stopOutcome (closeError (listeners (srv w))) (quit (srv w)),
     mkWorld
       (set_quit
          (if closeError (listeners (srv w)) is Some _ then quit (srv w)
           else true)
          (set_shutdown 1 (srv w)))
       (heap w)
       (trace w ++ (EvListenerClose <$> closedBy (listeners (srv w)))
          ++ if closeError (listeners (srv w)) is Some _ then []
             else teardownTail (quit (srv w)))).
Proof.
  intros H. unfold Stop, addShutdown. unfold_monad. simpl. rewrite H.
  rewrite decide_False by (intros ?; contradiction).
  rewrite closeListeners_run. simpl.
  destruct (closeError (listeners (srv w))) as [e|]; simpl.
  - by rewrite app_nil_r.
  - unfold teardownTail. destruct (quit (srv w)) eqn:Hq; simpl.
    + rewrite <- !app_assoc. simpl. do 2 f_equal.
      destruct w as [[] ? ?]; simpl in *; by subst.
    + by rewrite <- !app_assoc.
Qed.

(** Any other call only bumps the counter. *)
Lemma Stop_again w :
  wrap32 (shutdown (srv w) + 1) ≠ 1 →
  Stop w
  = (Returns None,
     mkWorld (set_shutdown (wrap32 (shutdown (srv w) + 1)) (srv w))
       (heap w) (trace w)).
Proof.
  intros H. unfold Stop, addShutdown. unfold_monad. simpl.
  by rewrite decide_True.
Qed.

Lemma closedBy_failing ls l e :
  l ∈ closedBy ls → l_close l = Some e →
  closeError ls = Some e ∧ last (closedBy ls) = Some l.
Proof.
  induction ls as [|x ls IH]; simpl; [by intros ?%elem_of_nil|].
  intros Hin Hl. destruct (l_close x) as [e'|] eqn:Hx.
  - apply list_elem_of_singleton in Hin as ->. split; [congruence|done].
  - apply elem_of_cons in Hin as [->|Hin]; [congruence|].
    destruct (IH Hin Hl) as [-> Hlast]. split; [done|].
    destruct (closedBy ls); [done|]. exact Hlast.
Qed.

Lemma closedBy_prefix ls : closedBy ls `prefix_of` ls.
Proof.
  induction ls as [|x ls IH]; simpl; [done|].
  destruct (l_close x).
  - by apply prefix_cons, prefix_nil.
  - by apply prefix_cons.
Qed.

Lemma closeError_None ls :
  closeError ls = None ↔ Forall (λ l, l_close l = None) ls.
Proof.
  induction ls as [|x ls IH]; simpl; [by split|].
  rewrite Forall_cons. destruct (l_close x) as [e|].
  - split; [done|]. by intros [? _].
  - rewrite IH. split; [by split|by intros [_ ?]].
Qed.

Lemma closedBy_all ls : closeError ls = None → closedBy ls = ls.
Proof.
  induction ls as [|x ls IH]; simpl; [done|].
  destruct (l_close x); [done|]. intros H. by rewrite IH.
Qed.

End stop.

(** C4. If, during [Stop], the [Close()] of some listener returns an error,
    [Stop] returns that error right after that call: the failing [Close()]
    is the last thing it does, so the RPC server, the wallet and the funding
    manager are not stopped, [quit] is not closed and the wait is not
    entered. *)
Theorem Stop_listener_error (w : world) (l : Listener) (e : error) :
  EvListenerClose l ∈ events_of Stop w →
  l_close l = Some e →
  result Stop w = Returns (Some e)
  ∧ last (events_of Stop w) = Some (EvListenerClose l)
  ∧ (EvRpcServerStop ∉ events_of Stop w)
  ∧ (EvWalletShutdown ∉ events_of Stop w)
  ∧ (EvFundingMgrStop ∉ events_of Stop w)
  ∧ (EvCloseQuit ∉ events_of Stop w)
  ∧ (EvWgWait ∉ events_of Stop w)
  ∧ quit (srv (exec Stop w)) = quit (srv w).
Proof.
  intros Hin Hl. unfold events_of, exec, result in *.
  destruct (decide (wrap32 (shutdown (srv w) + 1) = 1)) as [H1|H1].
  - rewrite (Stop_first _ H1) in *. simpl in *.
    rewrite drop_length_app in *.
    assert (Hc : l ∈ closedBy (listeners (srv w))).
    { destruct (closeError (listeners (srv w))) eqn:Hce.
      - rewrite app_nil_r in Hin.
        apply list_elem_of_fmap in Hin as (x & [= ->] & Hx). done.
      - apply elem_of_app in Hin as [Hin|Hin].
        + apply list_elem_of_fmap in Hin as (x & [= ->] & Hx). done.
        + unfold teardownTail in Hin. destruct (quit (srv w)); simpl in Hin;
            repeat (apply elem_of_cons in Hin as [Hin|Hin]; [discriminate|]);
            by apply elem_of_nil in Hin. }
    destruct (closedBy_failing _ _ _ Hc Hl) as [He Hlast].
    rewrite He. rewrite app_nil_r. split; [done|].
    split; [by rewrite fmap_last, Hlast|].
    repeat split; try done; intros (x & ? & _)%list_elem_of_fmap; done.
  - rewrite (Stop_again _ H1) in Hin. simpl in Hin.
    rewrite drop_all in Hin. by apply elem_of_nil in Hin.
Qed.

(** *** Repeated calls *)

Lemma wrap32_mod z : wrap32 z mod 2 ^ 32 = z mod 2 ^ 32.
Proof.
  unfold wrap32. rewrite Zminus_mod_idemp_l. f_equal. lia.
Qed.

Lemma Stop_counter (w : world) :
  shutdown (srv (exec Stop w)) = wrap32 (shutdown (srv w) + 1)
  ∧ listeners (srv (exec Stop w)) = listeners (srv w).
Proof.
  unfold exec.
  destruct (decide (wrap32 (shutdown (srv w) + 1) = 1)) as [H|H].
  - rewrite (Stop_first _ H). simpl. by rewrite H.
  - by rewrite (Stop_again _ H).
Qed.

Lemma StopN_succ (n : N) (w : world) :
  StopN (N.succ n) w = exec Stop (StopN n w).
Proof. unfold StopN. by rewrite N.iter_succ. Qed.

Lemma StopN_counter (n : N) (w : world) :
  int32_range (shutdown (srv w)) →
  shutdown (srv (StopN n w)) = wrap32 (shutdown (srv w) + Z.of_N n)
  ∧ listeners (srv (StopN n w)) = listeners (srv w).
Proof.
  intros Hr. induction n as [|n IH] using N.peano_ind.
  - simpl. by rewrite Z.add_0_r, wrap32_id.
  - rewrite StopN_succ. destruct (Stop_counter (StopN n w)) as [-> ->].
    destruct IH as [-> ->]. split; [|done].
    rewrite wrap32_add_wrap. f_equal. lia.
Qed.

Lemma wrap32_ne_one z : 1 < z ≤ 2 ^ 32 → wrap32 z ≠ 1.
Proof.
  intros Hz H. pose proof (wrap32_mod z) as Hm. rewrite H in Hm.
  destruct (decide (z = 2 ^ 32)) as [->|Hne]; [vm_compute in Hm; lia|].
  rewrite (Z.mod_small z) in Hm by lia. vm_compute in Hm. lia.
Qed.

(** After the call that ran the teardown, and until the counter comes back
    to 0, calls leave everything but the counter alone. *)
Lemma StopN_quiet (n : N) (w : world) :
  shutdown (srv w) = 1 →
  Z.of_N n ≤ 2 ^ 32 - 1 →
  StopN n w
  = mkWorld (set_shutdown (wrap32 (1 + Z.of_N n)) (srv w)) (heap w) (trace w).
Proof.
  intros H1. induction n as [|n IH] using N.peano_ind; intros Hn.
  - simpl. rewrite Z.add_0_r, wrap32_id by (unfold int32_range; lia).
    rewrite <- H1. destruct w as [[] ? ?]; reflexivity.
  - rewrite StopN_succ, IH by lia. unfold exec.
    rewrite Stop_again; simpl.
    + rewrite wrap32_add_wrap. unfold set_shutdown; simpl. do 3 f_equal. lia.
    + rewrite wrap32_add_wrap. apply wrap32_ne_one. lia.
Qed.

(** C6, as amended. [Stop] is one-shot.  The first call (counter at 0,
    [quit] open) closes the listeners in order up to the first that fails to
    close and returns that error; when none fails it goes on to stop the RPC
    server, the wallet and the funding manager, closes [quit], waits and
    returns nil.  Each of the following [2^32 - 1] calls (the 32-bit counter
    has not wrapped back to 0) returns nil at once: it closes no listener
    and repeats no teardown step; only the counter moves. *)
Theorem Stop_one_shot (w : world) :
  shutdown (srv w) = 0 →
  quit (srv w) = false →
  result Stop w = Returns (closeError (listeners (srv w)))
  ∧ events_of Stop w
    = (EvListenerClose <$> closedBy (listeners (srv w)))
        ++ (if closeError (listeners (srv w)) is Some _ then []
            else teardownTail false)
  ∧ (closeError (listeners (srv w)) = None →
       events_of Stop w
       = (EvListenerClose <$> listeners (srv w)) ++ teardownTail false
       ∧ quit (srv (exec Stop w)) = true)
  ∧ (∀ n : N, (n < 2 ^ 32 - 1)%N →
       result Stop (StopN n (exec Stop w)) = Returns None
       ∧ events_of Stop (StopN n (exec Stop w)) = []
       ∧ trace (exec Stop (StopN n (exec Stop w))) = trace (exec Stop w)
       ∧ heap (exec Stop (StopN n (exec Stop w))) = heap (exec Stop w)
       ∧ srv (exec Stop (StopN n (exec Stop w)))
         = set_shutdown (wrap32 (2 + Z.of_N n)) (srv (exec Stop w))).
Proof.
  intros H0 Hq.
  assert (H1 : wrap32 (shutdown (srv w) + 1) = 1) by (by rewrite H0).
  unfold events_of, exec, result. rewrite (Stop_first _ H1). simpl.
  rewrite drop_length_app, Hq.
  split; [by destruct (closeError (listeners (srv w)))|]. split; [done|]. split.
  { intros Hnone. rewrite Hnone. by rewrite closedBy_all. }
  intros n Hn.
  rewrite StopN_quiet by (simpl; lia). simpl.
  rewrite Stop_again; simpl.
  - rewrite drop_all. repeat split; try done.
    rewrite wrap32_add_wrap. unfold set_shutdown; simpl. do 2 f_equal. lia.
  - rewrite wrap32_add_wrap. apply wrap32_ne_one. lia.
Qed.

Lemma StopN_add (n m : N) (w : world) :
  StopN (n + m) w = StopN n (StopN m w).
Proof. unfold StopN. apply N.iter_add. Qed.

(** Once [2^32] calls have brought the counter back to 0, the next call runs
    the teardown again, up to the [close] of the closed [quit]. *)
Lemma Stop_after_wrap (n m : N) (w0 : world) (ls : list Listener) :
  n = (m + 1)%N →
  Z.of_N m = 2 ^ 32 - 1 →
  shutdown (srv w0) = 0 →
  quit (srv w0) = false →
  listeners (srv w0) = ls →
  closeError ls = None →
  events_of Stop (StopN n w0) = (EvListenerClose <$> ls) ++ teardownTail true
  ∧ result Stop (StopN n w0) = Panics.
Proof.
  intros -> Hm H0 Hq Hls Hok.
  assert (Hfirst : wrap32 (shutdown (srv w0) + 1) = 1) by (by rewrite H0).
  assert (Hw1 : shutdown (srv (StopN 1 w0)) = 1
                ∧ quit (srv (StopN 1 w0)) = true
                ∧ listeners (srv (StopN 1 w0)) = ls).
  { change (StopN 1 w0) with (exec Stop w0).
    unfold exec. rewrite (Stop_first _ Hfirst). simpl.
    by rewrite Hls, Hok. }
  destruct Hw1 as (Hs1 & Hq1 & Hl1).
  rewrite StopN_add, (StopN_quiet m _ Hs1) by lia.
  generalize dependent (StopN 1 w0). intros w1 Hs1 Hq1 Hl1.
  unfold events_of, exec, result. rewrite Stop_first; simpl.
  - rewrite drop_length_app, Hl1, Hok, Hq1. by rewrite closedBy_all.
  - rewrite Hm. reflexivity.
Qed.

(** C6, counterexample.  With a listener that fails to close, the first call
    stops no collaborator and does not close [quit], and the second call
    returns nil without finishing the teardown.  And the counter wraps: on a
    server without listeners, after [2^32] calls the next one stops the
    collaborators again and panics closing [quit] a second time. *)
Lemma Stop_one_shot_counterexample :
  (result Stop (initWorld 5 [lnBad; lnOk]) = Returns (Some "close failed")
   ∧ events_of Stop (initWorld 5 [lnBad; lnOk]) = [EvListenerClose lnBad]
   ∧ quit (srv (exec Stop (initWorld 5 [lnBad; lnOk]))) = false
   ∧ result Stop (exec Stop (initWorld 5 [lnBad; lnOk])) = Returns None
   ∧ events_of Stop (exec Stop (initWorld 5 [lnBad; lnOk])) = [])
  ∧ events_of Stop (StopN (2 ^ 32) (initWorld 5 []))
    = [EvRpcServerStop; EvWalletShutdown; EvFundingMgrStop; EvCloseQuit]
  ∧ result Stop (StopN (2 ^ 32) (initWorld 5 [])) = Panics.
Proof.
  split; [by vm_compute|].
  apply (Stop_after_wrap (2 ^ 32) (2 ^ 32 - 1) (initWorld 5 []) []);
    reflexivity.
Qed.

(** ** Connect queries *)

Lemma rejectMatches_run (msg : connectPeerMsg) (l : list (Z * peer))
    (w : world) :
  rejectMatches msg l w
  = (tt, mkWorld (srv w) (heap w) (trace w ++ rejectEvents msg l)).
Proof.
  revert w. induction l as [|[k p] l IH]; intros w; simpl.
  - unfold_monad. by rewrite app_nil_r, world_eta.
  - unfold_monad. simpl. case_decide; simpl; rewrite IH; simpl.
    + by rewrite <- !app_assoc.
    + done.
Qed.

(** The handler always ends by launching the dial goroutine, whatever the
    scan found. *)
Lemma handleConnectPeer_run (ord : MapOrder) (msg : connectPeerMsg)
    (w : world) :
  handleConnectPeer ord msg w
  = (tt, mkWorld (srv w) (heap w)
           (trace w ++ rejectEvents msg (range_of ord (peers (srv w)))
              ++ [EvGo (GoDial msg)])).
Proof.
  unfold handleConnectPeer. unfold_monad. rewrite rejectMatches_run. simpl.
  by rewrite <- app_assoc.
Qed.

(** C1, the code at inputs where the address is already registered.  With
    one registered peer at the address the handler sends the error and -1
    and then launches the dial goroutine all the same; with a reachable
    endpoint that goroutine connects, publishes a new peer, sends a second
    value on each reply channel, and the peer manager adds a second entry to
    the registry.  With two registered peers at the address the scan alone
    sends two values on each reply channel. *)
Theorem handleConnectPeer_duplicate :
  events_of (handleConnectPeer default_order msgX) worldA
  = [EvSendErr 11 (Some "already connected to peer: X@10.0.0.1:10011");
     EvSendResp 10 (-1);
     EvGo (GoDial msgX)]
  ∧ (let w1 := exec (handleConnectPeer default_order msgX) worldA in
     let w2 := exec (dialPeer envUp msgX) w1 in
     let w3 := exec managerNewPeer w2 in
     events_of (dialPeer envUp msgX) w1
     = [EvDial 5 "10.0.0.1:10011" [1; 2; 3]; EvPeerStart peerC;
        EvSendNewPeers peerC; EvSendResp 10 9; EvSendErr 11 None]
     ∧ length (sendsOn 11 (trace w2)) = 2%nat
     ∧ length (sendsOn 10 (trace w2)) = 2%nat
     ∧ peers (srv w3) !! 7 = Some peerA
     ∧ peers (srv w3) !! 9 = Some peerC
     ∧ size (peers (srv w3)) = 2%nat
     ∧ size (peers (srv worldA)) = 1%nat)
  ∧ events_of (handleConnectPeer default_order msgX) worldAC
    = [EvSendErr 11 (Some "already connected to peer: X@10.0.0.1:10011");
       EvSendResp 10 (-1);
       EvSendErr 11 (Some "already connected to peer: X@10.0.0.1:10011");
       EvSendResp 10 (-1);
       EvGo (GoDial msgX)].
Proof. by vm_compute. Qed.

(** ** The dialer *)

Lemma dialPeer_failure_run (env : Env) (msg : connectPeerMsg) (w : world)
    (e : error) :
  conn_Dial env (identityPriv (srv w)) (NetAddr (addr msg))
    (remoteIdOf (addr msg)) = Some e →
  dialPeer env msg w
  = (tt,
     mkWorld (srv w) (heap w)
       (trace w
          ++ [EvDial (identityPriv (srv w)) (NetAddr (addr msg))
                (remoteIdOf (addr msg));
              EvSendErr (err msg) (Some e);
              EvSendResp (resp msg) (-1)])).
Proof.
  intros Hd. unfold dialPeer. unfold_monad. simpl. rewrite Hd. simpl.
  by rewrite <- !app_assoc.
Qed.

(** C3. When the dial (transport connection and authenticated handshake)
    fails, the dial goroutine sends the error and then the id -1 to the
    caller and changes nothing in the server: the peer map, and the queue of
    new peers through which a peer would reach it, are as before.  That is
    so for the whole attempt, from the handler that launched the
    goroutine. *)
Theorem dialPeer_failure (env : Env) (msg : connectPeerMsg) (w : world)
    (e : error) :
  conn_Dial env (identityPriv (srv w)) (NetAddr (addr msg))
    (remoteIdOf (addr msg)) = Some e →
  events_of (dialPeer env msg) w
  = [EvDial (identityPriv (srv w)) (NetAddr (addr msg)) (remoteIdOf (addr msg));
     EvSendErr (err msg) (Some e);
     EvSendResp (resp msg) (-1)]
  ∧ peers (srv (exec (dialPeer env msg) w)) = peers (srv w)
  ∧ srv (exec (dialPeer env msg) w) = srv w
  ∧ heap (exec (dialPeer env msg) w) = heap w
  ∧ ∀ ord : MapOrder,
      srv (exec (dialPeer env msg) (exec (handleConnectPeer ord msg) w))
      = srv w.
Proof.
  intros Hd. unfold events_of, exec.
  rewrite (dialPeer_failure_run _ _ _ _ Hd). simpl.
  rewrite drop_length_app. repeat split.
  intros ord. rewrite handleConnectPeer_run. simpl.
  by rewrite (dialPeer_failure_run _ _ _ e).
Qed.

(** The same holds when the connection is made but no peer can be built
    from it; the two replies then go out in the other order. *)
Lemma dialPeer_newPeer_failure (env : Env) (msg : connectPeerMsg) (w : world)
    (e : error) :
  conn_Dial env (identityPriv (srv w)) (NetAddr (addr msg))
    (remoteIdOf (addr msg)) = None →
  newPeer env (mkConn (NetAddr (addr msg)) (remoteIdOf (addr msg))) false
  = inr e →
  events_of (dialPeer env msg) w
  = [EvDial (identityPriv (srv w)) (NetAddr (addr msg)) (remoteIdOf (addr msg));
     EvSendResp (resp msg) (-1);
     EvSendErr (err msg) (Some e)]
  ∧ srv (exec (dialPeer env msg) w) = srv w.
Proof.
  intros Hd Hn. unfold dialPeer. unfold_monad. simpl. rewrite Hd, Hn. simpl.
  rewrite <- !app_assoc. by rewrite drop_length_app.
Qed.

(** ** List queries *)

Section list_peers.
Implicit Types (w : world) (ps : slice) (l : list (Z * peer)).

Lemma range_of_length (ord : MapOrder) (m : gmap Z peer) :
  length (range_of ord m) = size m.
Proof. by rewrite (range_of_perm ord m), length_map_to_list. Qed.

Lemma alter_Some {A} (m : gmap positive A) (f : A → A) (a : positive) (x : A) :
  m !! a = Some x → alter f a m = <[a := f x]> m.
Proof.
  intros Hx. apply map_eq; intros j. rewrite lookup_alter, lookup_insert.
  case_decide; subst; [by rewrite Hx|done].
Qed.

(** Within capacity, the loop writes the peers one after the other into the
    backing array of the slice it started from. *)
Lemma appendAll_run l : ∀ ps w arr,
  heap w !! s_arr ps = Some arr →
  length arr = s_cap ps →
  (s_len ps + length l ≤ s_cap ps)%nat →
  appendAll ps l w
  = (mkSlice (s_arr ps) (s_len ps + length l) (s_cap ps),
     mkWorld (srv w)
       (<[s_arr ps := take (s_len ps) arr ++ (Some <$> l.*2)
                        ++ drop (s_len ps + length l) arr]> (heap w))
       (trace w)).
Proof.
  induction l as [|[k p] l IH]; intros ps w arr Harr Hlen Hcap; simpl in *.
  - unfold_monad. rewrite Nat.add_0_r, take_drop, (insert_id _ _ _ Harr).
    destruct ps, w; reflexivity.
  - unfold_monad. unfold append.
    rewrite decide_True by lia. simpl.
    rewrite (IH _ _ (<[s_len ps := Some p]> arr)); simpl.
    + f_equal; [f_equal; lia|]. f_equal.
      rewrite (alter_Some _ _ _ _ Harr), insert_insert_eq. f_equal.
      rewrite (take_S_r _ _ (Some p))
        by (apply list_lookup_insert_eq; lia).
      rewrite take_insert_ge by lia.
      rewrite drop_insert_lt by lia.
      rewrite <- app_assoc. simpl.
      by replace (s_len ps + S (length l))%nat
        with (S (s_len ps + length l)) by lia.
    + rewrite (alter_Some _ _ _ _ Harr). apply lookup_insert_eq.
    + by rewrite length_insert.
    + lia.
Qed.

Lemma handleListPeers_run (ord : MapOrder) (msg : listPeersMsg) w :
  handleListPeers ord msg w
  = (tt,
     mkWorld (srv w)
       (<[fresh (dom (heap w)) := Some <$> (range_of ord (peers (srv w))).*2]>
          (heap w))
       (trace w
          ++ [EvSendPeers (lp_resp msg)
                (mkSlice (fresh (dom (heap w))) (size (peers (srv w)))
                   (size (peers (srv w))))])).
Proof.
  unfold handleListPeers, make. unfold_monad. simpl.
  erewrite appendAll_run; simpl.
  - rewrite range_of_length, insert_insert_eq. simpl.
    rewrite drop_ge by (by rewrite length_replicate). by rewrite app_nil_r.
  - apply lookup_insert_eq.
  - by rewrite length_replicate.
  - by rewrite range_of_length.
Qed.

(** Under its own id, each peer appears once in any enumeration. *)
Lemma range_of_ids (ord : MapOrder) (s : server) :
  peers_keyed s →
  NoDup (peer_id <$> (range_of ord (peers s)).*2).
Proof.
  intros Hkey. rewrite (range_of_perm ord (peers s)).
  assert (Heq : peer_id <$> (map_to_list (peers s)).*2
                = (map_to_list (peers s)).*1).
  { rewrite <- list_fmap_compose. apply list_fmap_ext.
    intros i [k p] Hi%list_elem_of_lookup_2. simpl.
    apply elem_of_map_to_list in Hi. by apply Hkey. }
  rewrite Heq. apply NoDup_fst_map_to_list.
Qed.

(** The registry operations do not write to the heap of slices. *)
Lemma addPeer_heap (p : option peer) w : heap (exec (addPeer p) w) = heap w.
Proof.
  destruct p as [p|]; [|done]. unfold addPeer. unfold_monad.
  by case_decide.
Qed.

Lemma removePeer_heap (p : option peer) w :
  heap (exec (removePeer p) w) = heap w.
Proof.
  destruct p as [p|]; [|done]. unfold removePeer. unfold_monad.
  by case_decide.
Qed.

End list_peers.

(** C5. [handleListPeers] sends one slice on the reply channel.  It holds
    the peers of the map at that moment, each once: no id occurs twice and
    its length is the number of entries of the map.  The slice is a new
    object: its backing array was not on the heap before, no other array is
    written, the server keeps no reference to it and is itself unchanged;
    later additions, removals and list queries leave its contents as they
    are. *)
Theorem handleListPeers_snapshot (ord : MapOrder) (msg msg' : listPeersMsg)
    (w : world) :
  peers_keyed (srv w) →
  ∃ (sl : slice) (reply : list peer),
    events_of (handleListPeers ord msg) w = [EvSendPeers (lp_resp msg) sl]
    ∧ slice_elems (heap (exec (handleListPeers ord msg) w)) sl = Some <$> reply
    ∧ reply ≡ₚ (map_to_list (peers (srv w))).*2
    ∧ NoDup (peer_id <$> reply)
    ∧ length reply = size (peers (srv w))
    ∧ s_len sl = size (peers (srv w))
    ∧ (s_arr sl ∉ dom (heap w))
    ∧ srv (exec (handleListPeers ord msg) w) = srv w
    ∧ (∀ a, a ≠ s_arr sl →
         heap (exec (handleListPeers ord msg) w) !! a = heap w !! a)
    ∧ (∀ p, slice_elems
              (heap (exec (addPeer p) (exec (handleListPeers ord msg) w))) sl
            = Some <$> reply)
    ∧ (∀ p, slice_elems
              (heap (exec (removePeer p) (exec (handleListPeers ord msg) w))) sl
            = Some <$> reply)
    ∧ slice_elems
        (heap (exec (handleListPeers ord msg')
                 (exec (handleListPeers ord msg) w))) sl
      = Some <$> reply.
Proof.
  intros Hkey.
  exists (mkSlice (fresh (dom (heap w))) (size (peers (srv w)))
            (size (peers (srv w)))),
         (range_of ord (peers (srv w))).*2.
  assert (Hlen : length ((range_of ord (peers (srv w))).*2)
                 = size (peers (srv w))).
  { by rewrite length_fmap, range_of_length. }
  assert (Helems : slice_elems
            (heap (exec (handleListPeers ord msg) w))
            (mkSlice (fresh (dom (heap w))) (size (peers (srv w)))
               (size (peers (srv w))))
          = Some <$> (range_of ord (peers (srv w))).*2).
  { unfold slice_elems, exec. rewrite handleListPeers_run. simpl.
    rewrite lookup_insert_eq. simpl.
    apply take_ge. rewrite length_fmap. lia. }
  split.
  { unfold events_of, exec. rewrite handleListPeers_run. simpl.
    by rewrite drop_length_app. }
  split; [exact Helems|].
  split; [by rewrite (range_of_perm ord)|].
  split; [by apply range_of_ids|].
  split; [exact Hlen|].
  split; [done|].
  split; [apply is_fresh|].
  split; [unfold exec; by rewrite handleListPeers_run|].
  split.
  { intros a Ha. unfold exec. rewrite handleListPeers_run. simpl in *.
    by rewrite lookup_insert_ne. }
  split; [intros p; unfold slice_elems; by rewrite addPeer_heap|].
  split; [intros p; unfold slice_elems; by rewrite removePeer_heap|].
  rewrite <- Helems. unfold slice_elems. f_equal. simpl.
  unfold exec at 1. rewrite handleListPeers_run. simpl.
  rewrite lookup_insert_ne; [done|].
  intros Heq.
  assert (Hin : fresh (dom (heap w))
                ∈ dom (heap (exec (handleListPeers ord msg) w))).
  { unfold exec. rewrite handleListPeers_run. simpl.
    rewrite dom_insert_L. set_solver. }
  rewrite <- Heq in Hin. by apply is_fresh in Hin.
Qed.

(** ** The goroutines *)

Section goroutines.
Context (env : Env) (ord : MapOrder).
Implicit Types (σ : sys) (w : world) (evs : list event) (l : label).

Lemma spawn_fields evs : ∀ σ,
  st (spawn evs σ) = st σ
  ∧ handlers (spawn evs σ) = handlers σ ++ launchedHandlers evs
  ∧ managers (spawn evs σ) = managers σ ++ launchedManagers evs
  ∧ accepters (spawn evs σ) = accepters σ ++ launchedAccepters evs
  ∧ dialers (spawn evs σ) = dialers σ ++ launchedDialers evs
  ∧ caller (spawn evs σ) = caller σ
  ∧ waiters (spawn evs σ) = waiters σ
  ∧ stopReturns (spawn evs σ) = stopReturns σ.
Proof.
  induction evs as [|ev evs IH]; intros σ; simpl.
  - by rewrite !app_nil_r.
  - unfold spawn in *. simpl.
    destruct (IH (spawnOne σ ev)) as (-> & -> & -> & -> & -> & -> & -> & ->).
    unfold launchedHandlers, launchedManagers, launchedAccepters,
      launchedDialers.
    destruct ev as [| | | | | | | | | | | | | |[]]; simpl;
      rewrite <- ?app_assoc; done.
Qed.

Lemma runCode_st {A} (c : M A) σ : st (runCode c σ) = exec c (st σ).
Proof. unfold runCode. by destruct (spawn_fields (events_of c (st σ))
  (set_st (exec c (st σ)) σ)) as (-> & _). Qed.

Lemma runCode_handlers {A} (c : M A) σ :
  handlers (runCode c σ) = handlers σ ++ launchedHandlers (events_of c (st σ)).
Proof. unfold runCode. by destruct (spawn_fields (events_of c (st σ))
  (set_st (exec c (st σ)) σ)) as (_ & -> & _). Qed.

Lemma runCode_managers {A} (c : M A) σ :
  managers (runCode c σ) = managers σ ++ launchedManagers (events_of c (st σ)).
Proof. unfold runCode. by destruct (spawn_fields (events_of c (st σ))
  (set_st (exec c (st σ)) σ)) as (_ & _ & -> & _). Qed.

Lemma runCode_accepters {A} (c : M A) σ :
  accepters (runCode c σ)
  = accepters σ ++ launchedAccepters (events_of c (st σ)).
Proof. unfold runCode. by destruct (spawn_fields (events_of c (st σ))
  (set_st (exec c (st σ)) σ)) as (_ & _ & _ & -> & _). Qed.

Lemma runCode_caller {A} (c : M A) σ : caller (runCode c σ) = caller σ.
Proof. unfold runCode. by destruct (spawn_fields (events_of c (st σ))
  (set_st (exec c (st σ)) σ)) as (_ & _ & _ & _ & _ & -> & _). Qed.

Lemma runCode_ret σ : runCode (ret tt) σ = σ.
Proof.
  unfold runCode, events_of, exec. simpl. rewrite drop_all. by destruct σ.
Qed.

(** *** What each piece of code does to the state *)

Ltac step_code :=
  unfold_monad; simpl; repeat case_match; simpl;
  rewrite <- ?app_assoc; simpl.

Lemma plain_events {A} (c : M A) w :
  plain c →
  forallb plainEvent (events_of c w) = true
  ∧ trace (exec c w) = trace w ++ events_of c w.
Proof.
  intros Hc. destruct (Hc w) as (evs & Htr & Hpl & _).
  unfold events_of. rewrite Htr, drop_length_app. done.
Qed.

Lemma plain_launches evs :
  forallb plainEvent evs = true →
  launchedHandlers evs = [] ∧ launchedManagers evs = []
  ∧ launchedAccepters evs = [] ∧ launchedDialers evs = []
  ∧ listReplies evs = [].
Proof.
  induction evs as [|ev evs IH]; simpl; [done|].
  intros [Hev Hevs]%andb_prop. destruct (IH Hevs) as (H1 & H2 & H3 & H4 & H5).
  unfold launchedHandlers, launchedManagers, launchedAccepters,
    launchedDialers, listReplies in *. simpl.
  rewrite filter_cons.
  destruct ev; simpl in *; try discriminate; rewrite ?H1, ?H2, ?H3, ?H4, ?H5;
    done.
Qed.

Lemma plain_wgAdd (n : Z) w :
  exec (wgAdd n) w = mkWorld (set_wg (wg (srv w) + n) (srv w)) (heap w) (trace w).
Proof. reflexivity. Qed.

Lemma plain_dialPeer (msg : connectPeerMsg) : plain (dialPeer env msg).
Proof.
  intros w. unfold dialPeer, sendNewPeers.
  step_code; eexists; (split; [reflexivity|done]).
Qed.

Lemma plain_listenerAccept (acc : Conn + error) :
  plain (listenerAccept env acc).
Proof.
  intros w. unfold listenerAccept, sendNewPeers.
  step_code; try (eexists; (split; [reflexivity|done])).
  all: exists []; by rewrite app_nil_r.
Qed.

Lemma plain_managerNewPeer : plain managerNewPeer.
Proof.
  intros w. unfold managerNewPeer, addPeer.
  step_code; try (eexists; (split; [reflexivity|done])).
  all: exists []; by rewrite app_nil_r.
Qed.

Lemma plain_managerDonePeer : plain managerDonePeer.
Proof.
  intros w. unfold managerDonePeer, removePeer.
  step_code; try (eexists; (split; [reflexivity|done])).
  all: exists []; by rewrite app_nil_r.
Qed.

Lemma startListeners_run (ls : list Listener) w :
  startListeners ls w
  = (tt, mkWorld (set_wg (wg (srv w) + Z.of_nat (length ls)) (srv w)) (heap w)
           (trace w ++ (EvGo ∘ GoListener <$> ls))).
Proof.
  revert w. induction ls as [|x ls IH]; intros w.
  - simpl. unfold_monad. rewrite app_nil_r, Z.add_0_r.
    by destruct w as [[] ? ?].
  - cbn [startListeners]. unfold wgAdd. unfold_monad. rewrite IH. simpl.
    rewrite <- app_assoc. unfold set_wg; simpl.
    by replace (wg (srv w) + 1 + Z.of_nat (length ls))
      with (wg (srv w) + Z.of_nat (S (length ls))) by lia.
Qed.

(** The call that takes the counter to 1 launches the goroutines. *)
Lemma Start_first w :
  wrap32 (started (srv w) + 1) = 1 →
  Start w
  = (tt,
     mkWorld
       (set_wg (wg (srv w) + Z.of_nat (length (listeners (srv w))) + 2)
          (set_started 1 (srv w)))
       (heap w) (trace w ++ startEvents (listeners (srv w)))).
Proof.
  intros H. unfold Start, addStarted, wgAdd. unfold_monad. simpl. rewrite H.
  rewrite decide_False by (intros ?; contradiction).
  rewrite startListeners_run. simpl. unfold startEvents.
  by rewrite <- !app_assoc.
Qed.

Lemma Start_again w :
  wrap32 (started (srv w) + 1) ≠ 1 →
  Start w
  = (tt,
     mkWorld (set_started (wrap32 (started (srv w) + 1)) (srv w))
       (heap w) (trace w)).
Proof.
  intros H. unfold Start, addStarted. unfold_monad. simpl.
  by rewrite decide_True.
Qed.

(** *** The outpoint index *)

Lemma grows_inv w w' : grows w w' → chan_inv (srv w) → chan_inv (srv w').
Proof.
  intros [Hci Hp] Hinv. unfold chan_inv in *. rewrite Hci.
  intros op q Hq. apply Hp. by apply (Hinv op q).
Qed.

Lemma grows_Start w : grows w (exec Start w).
Proof.
  unfold exec. destruct (decide (wrap32 (started (srv w) + 1) = 1)) as [H|H].
  - by rewrite (Start_first _ H).
  - by rewrite (Start_again _ H).
Qed.

Lemma grows_Stop w : grows w (exec Stop w).
Proof.
  unfold exec. destruct (decide (wrap32 (shutdown (srv w) + 1) = 1)) as [H|H].
  - by rewrite (Stop_first _ H).
  - by rewrite (Stop_again _ H).
Qed.

Lemma grows_handleListPeers (msg : listPeersMsg) w :
  grows w (exec (handleListPeers ord msg) w).
Proof. unfold exec. by rewrite handleListPeers_run. Qed.

Lemma grows_handleConnectPeer (msg : connectPeerMsg) w :
  grows w (exec (handleConnectPeer ord msg) w).
Proof. unfold exec. by rewrite handleConnectPeer_run. Qed.

Lemma grows_wgAdd (n : Z) w : grows w (exec (wgAdd n) w).
Proof. done. Qed.

Lemma grows_dialPeer (msg : connectPeerMsg) w :
  grows w (exec (dialPeer env msg) w).
Proof. unfold dialPeer, sendNewPeers. step_code; done. Qed.

Lemma grows_listenerAccept (acc : Conn + error) w :
  grows w (exec (listenerAccept env acc) w).
Proof. unfold listenerAccept, sendNewPeers. step_code; done. Qed.

Lemma grows_managerNewPeer w : grows w (exec managerNewPeer w).
Proof.
  unfold managerNewPeer, addPeer. step_code; try done.
  split; [done|]. simpl. intros k Hk.
  destruct (decide (peer_id p = k)) as [<-|Hne].
  - rewrite lookup_insert_eq. by eexists.
  - by rewrite lookup_insert_ne.
Qed.

(** [removePeer] deletes the entry of the peer map and nothing else. *)
Lemma managerDonePeer_running w (p : peer) :
  head (donePeers (srv w)) = Some p →
  shutdown (srv w) = 0 →
  peers (srv (exec managerDonePeer w)) = delete (peer_id p) (peers (srv w))
  ∧ chanIndex (srv (exec managerDonePeer w)) = chanIndex (srv w).
Proof.
  intros Hp Hs. unfold managerDonePeer, removePeer. unfold_monad.
  destruct (donePeers (srv w)) as [|p' q]; simplify_eq/=.
  by rewrite decide_False by (intros ?; contradiction).
Qed.

Lemma grows_managerDonePeer_shutdown w :
  shutdown (srv w) ≠ 0 → grows w (exec managerDonePeer w).
Proof.
  intros Hs. unfold managerDonePeer, removePeer. step_code; done.
Qed.

Lemma managerDonePeer_inv w (p : peer) :
  head (donePeers (srv w)) = Some p →
  shutdown (srv w) ≠ 0
  ∨ map_Forall (λ _ q, peer_id q ≠ peer_id p) (chanIndex (srv w)) →
  chan_inv (srv w) → chan_inv (srv (exec managerDonePeer w)).
Proof.
  intros Hp [Hs|Hfree] Hinv.
  { apply (grows_inv w); [|done]. by apply grows_managerDonePeer_shutdown. }
  destruct (decide (shutdown (srv w) = 0)) as [Hs|Hs]; last first.
  { apply (grows_inv w); [|done]. by apply grows_managerDonePeer_shutdown. }
  destruct (managerDonePeer_running w p Hp Hs) as [Hpeers Hci].
  unfold chan_inv in *. rewrite Hci, Hpeers. intros op q Hq.
  rewrite lookup_delete_ne by (symmetry; by apply (Hfree op q)).
  by apply (Hinv op q).
Qed.

Lemma grows_refl w : grows w w.
Proof. done. Qed.

Lemma grows_steps l w w' :
  (∀ j, l ≠ LManagerDone j) →
  grows w w' →
  ((∀ op p, l ≠ LIndexChannel op p) → chanIndex (srv w') = chanIndex (srv w))
  ∧ ((∀ j, l ≠ LManagerDone j) → chan_inv (srv w) → chan_inv (srv w'))
  ∧ (∀ p, head (donePeers (srv w)) = Some p →
       shutdown (srv w) ≠ 0
       ∨ map_Forall (λ _ q, peer_id q ≠ peer_id p) (chanIndex (srv w)) →
       chan_inv (srv w) → chan_inv (srv w'))
  ∧ (∀ j p, l = LManagerDone j →
       head (donePeers (srv w)) = Some p →
       shutdown (srv w) = 0 →
       peers (srv w') = delete (peer_id p) (peers (srv w))).
Proof.
  intros Hl Hg. split; [intros _; apply Hg|].
  split; [intros _; by apply grows_inv|].
  split; [intros p _ _; by apply grows_inv|].
  intros j p ->. by destruct (Hl j).
Qed.

Create HintDb grows.

Local Hint Resolve grows_refl grows_Start grows_Stop grows_handleListPeers
  grows_handleConnectPeer grows_wgAdd grows_dialPeer grows_listenerAccept
  grows_managerNewPeer : grows.

(** C2, as amended.  No move of the server writes the outpoint index; only
    the funding collaborator does, for a registered peer.  Every move other
    than the peer manager taking a finished peer keeps the invariant that
    each entry of the index refers to a peer whose id is in the peer map.
    That move deletes the entry of the peer map and leaves the index as it
    is: it keeps the invariant when the server is shutting down (the map is
    not touched) or when no entry of the index refers to the id it
    removes. *)
Theorem chanIndex_steps l σ σ' :
  step env ord l σ = Some σ' →
  ((∀ op p, l ≠ LIndexChannel op p) →
     chanIndex (srv (st σ')) = chanIndex (srv (st σ)))
  ∧ ((∀ j, l ≠ LManagerDone j) →
     chan_inv (srv (st σ)) → chan_inv (srv (st σ')))
  ∧ (∀ p, head (donePeers (srv (st σ))) = Some p →
       shutdown (srv (st σ)) ≠ 0
       ∨ map_Forall (λ _ q, peer_id q ≠ peer_id p) (chanIndex (srv (st σ))) →
       chan_inv (srv (st σ)) → chan_inv (srv (st σ')))
  ∧ (∀ j p, l = LManagerDone j →
       head (donePeers (srv (st σ))) = Some p →
       shutdown (srv (st σ)) = 0 →
       peers (srv (st σ')) = delete (peer_id p) (peers (srv (st σ)))).
Proof.
  intros Hstep.
  destruct l; simpl in Hstep; repeat case_match; simplify_eq; simpl;
    rewrite ?runCode_st;
    try (apply grows_steps; [done|auto with grows]).
  - (* the peer manager takes a finished peer *)
    assert (Hhd : head (donePeers (srv (st σ))) = Some p) by (by rewrite H1).
    split.
    { intros _. destruct (decide (shutdown (srv (st σ)) = 0)) as [Hs|Hs].
      - by eapply managerDonePeer_running.
      - by apply grows_managerDonePeer_shutdown. }
    split; [intros Hj; by destruct (Hj j)|]. split.
    { intros p' [= <-]. by apply managerDonePeer_inv. }
    intros j' p' _ [= <-] Hs. by eapply managerDonePeer_running.
  - (* the funding collaborator records a channel *)
    split; [intros Hop; by destruct (Hop op p)|].
    assert (Hinv : chan_inv (srv (st σ)) →
                   chan_inv (set_chanIndex (<[op:=p]> (chanIndex (srv (st σ))))
                               (srv (st σ)))).
    { intros Hinv. unfold chan_inv in *. simpl.
      apply map_Forall_insert_2; [by eexists|done]. }
    split; [intros _; exact Hinv|]. split; [intros ? _ _; exact Hinv|].
    intros j' p' Hl. discriminate.
Qed.

(** *** Invariants of the reachable states *)

Lemma countb_app {A} (f : A → bool) (l k : list A) :
  countb f (l ++ k) = (countb f l + countb f k)%nat.
Proof. induction l as [|x l IH]; simpl; [done|]. rewrite IH. lia. Qed.

Lemma countb_insert {A} (f : A → bool) (l : list A) (i : nat) (x y : A) :
  l !! i = Some x →
  (countb f (<[i:=y]> l) + (if f x then 1 else 0)
   = countb f l + (if f y then 1 else 0))%nat.
Proof.
  revert i. induction l as [|z l IH]; intros [|i] Hi; simplify_eq/=.
  - lia.
  - specialize (IH i Hi). lia.
Qed.

Lemma countb_zero {A} (f : A → bool) (l : list A) :
  countb f l = 0%nat → Forall (λ x, f x = false) l.
Proof.
  induction l as [|x l IH]; simpl; [done|].
  destruct (f x) eqn:Hx; [lia|]. intros H. constructor; auto.
Qed.

Lemma listReplies_app evs evs' :
  listReplies (evs ++ evs') = listReplies evs ++ listReplies evs'.
Proof. unfold listReplies. apply filter_app. Qed.

Lemma plain_Stop : plain Stop.
Proof.
  intros w. unfold exec.
  destruct (decide (wrap32 (shutdown (srv w) + 1) = 1)) as [H|H].
  - rewrite (Stop_first _ H). simpl. eexists. split; [reflexivity|].
    split; [|done]. rewrite forallb_app. apply andb_true_intro. split.
    + induction (closedBy (listeners (srv w))); simpl; [done|]. assumption.
    + destruct (closeError (listeners (srv w))); [done|].
      by destruct (quit (srv w)).
  - rewrite (Stop_again _ H). simpl. exists []. by rewrite app_nil_r.
Qed.

(** Plain code, run as a move, changes no goroutine. *)
Lemma runCode_plain {A} (c : M A) σ :
  plain c →
  handlers (runCode c σ) = handlers σ
  ∧ managers (runCode c σ) = managers σ
  ∧ accepters (runCode c σ) = accepters σ
  ∧ wg (srv (st (runCode c σ))) = wg (srv (st σ))
  ∧ listReplies (trace (st (runCode c σ))) = listReplies (trace (st σ)).
Proof.
  intros Hc. destruct (plain_events c (st σ) Hc) as [Hpl Htr].
  destruct (plain_launches _ Hpl) as (H1 & H2 & H3 & _ & H5).
  rewrite runCode_handlers, runCode_managers, runCode_accepters, runCode_st.
  rewrite H1, H2, H3, !app_nil_r, Htr, listReplies_app, H5, app_nil_r.
  destruct (Hc (st σ)) as (? & _ & _ & -> & _). done.
Qed.

Lemma runCode_wgAdd (n : Z) σ :
  handlers (runCode (wgAdd n) σ) = handlers σ
  ∧ managers (runCode (wgAdd n) σ) = managers σ
  ∧ accepters (runCode (wgAdd n) σ) = accepters σ
  ∧ wg (srv (st (runCode (wgAdd n) σ))) = wg (srv (st σ)) + n
  ∧ trace (st (runCode (wgAdd n) σ)) = trace (st σ).
Proof.
  rewrite runCode_handlers, runCode_managers, runCode_accepters, runCode_st.
  unfold events_of. rewrite plain_wgAdd. simpl. rewrite drop_all. simpl.
  by rewrite !app_nil_r.
Qed.

Lemma runCode_handleListPeers (msg : listPeersMsg) σ :
  handlers (runCode (handleListPeers ord msg) σ) = handlers σ
  ∧ managers (runCode (handleListPeers ord msg) σ) = managers σ
  ∧ accepters (runCode (handleListPeers ord msg) σ) = accepters σ
  ∧ srv (st (runCode (handleListPeers ord msg) σ)) = srv (st σ).
Proof.
  rewrite runCode_handlers, runCode_managers, runCode_accepters, runCode_st.
  unfold events_of, exec. rewrite handleListPeers_run. simpl.
  rewrite drop_length_app. simpl. by rewrite !app_nil_r.
Qed.

Lemma rejectEvents_plain (msg : connectPeerMsg) (l : list (Z * peer)) :
  forallb plainEvent (rejectEvents msg l) = true.
Proof.
  induction l as [|[k p] l IH]; simpl; [done|]. by case_decide.
Qed.

Lemma runCode_handleConnectPeer (msg : connectPeerMsg) σ :
  handlers (runCode (handleConnectPeer ord msg) σ) = handlers σ
  ∧ managers (runCode (handleConnectPeer ord msg) σ) = managers σ
  ∧ accepters (runCode (handleConnectPeer ord msg) σ) = accepters σ
  ∧ srv (st (runCode (handleConnectPeer ord msg) σ)) = srv (st σ)
  ∧ listReplies (trace (st (runCode (handleConnectPeer ord msg) σ)))
    = listReplies (trace (st σ)).
Proof.
  rewrite runCode_handlers, runCode_managers, runCode_accepters, runCode_st.
  unfold events_of, exec. rewrite handleConnectPeer_run. simpl.
  rewrite drop_length_app.
  destruct (plain_launches _ (rejectEvents_plain msg
    (range_of ord (peers (srv (st σ)))))) as (H1 & H2 & H3 & _ & H5).
  unfold launchedHandlers, launchedManagers, launchedAccepters in *.
  rewrite !omap_app, H1, H2, H3, !listReplies_app, H5. simpl.
  by rewrite !app_nil_r.
Qed.

Lemma listeners_launches (ls : list Listener) :
  launchedHandlers (EvGo ∘ GoListener <$> ls) = []
  ∧ launchedManagers (EvGo ∘ GoListener <$> ls) = []
  ∧ launchedAccepters (EvGo ∘ GoListener <$> ls) = (λ x, (x, ALoop)) <$> ls
  ∧ listReplies (EvGo ∘ GoListener <$> ls) = [].
Proof.
  induction ls as [|x ls (IH1 & IH2 & IH3 & IH4)]; [done|].
  unfold launchedHandlers, launchedManagers, launchedAccepters, listReplies
    in *.
  rewrite !fmap_cons. cbn [omap list_omap]. rewrite filter_cons. simpl.
  by rewrite IH1, IH2, IH3, IH4.
Qed.

Lemma startEvents_launches (ls : list Listener) :
  launchedHandlers (startEvents ls) = [HSelect]
  ∧ launchedManagers (startEvents ls) = [true]
  ∧ launchedAccepters (startEvents ls) = (λ x, (x, ALoop)) <$> ls
  ∧ listReplies (startEvents ls) = [].
Proof.
  destruct (listeners_launches ls) as (H1 & H2 & H3 & H4).
  unfold startEvents, launchedHandlers, launchedManagers, launchedAccepters
    in *.
  rewrite !omap_app, listReplies_app, H1, H2, H3, H4. simpl.
  by rewrite app_nil_r.
Qed.

Lemma runCode_Start σ :
  (wrap32 (started (srv (st σ)) + 1) = 1
   ∧ handlers (runCode Start σ) = handlers σ ++ [HSelect]
   ∧ managers (runCode Start σ) = managers σ ++ [true]
   ∧ accepters (runCode Start σ)
     = accepters σ ++ ((λ x, (x, ALoop)) <$> listeners (srv (st σ)))
   ∧ wg (srv (st (runCode Start σ)))
     = wg (srv (st σ)) + Z.of_nat (length (listeners (srv (st σ)))) + 2
   ∧ listReplies (trace (st (runCode Start σ)))
     = listReplies (trace (st σ)))
  ∨ (wrap32 (started (srv (st σ)) + 1) ≠ 1
     ∧ handlers (runCode Start σ) = handlers σ
     ∧ managers (runCode Start σ) = managers σ
     ∧ accepters (runCode Start σ) = accepters σ
     ∧ wg (srv (st (runCode Start σ))) = wg (srv (st σ))
     ∧ listReplies (trace (st (runCode Start σ)))
       = listReplies (trace (st σ))).
Proof.
  rewrite runCode_handlers, runCode_managers, runCode_accepters, runCode_st.
  unfold events_of, exec.
  destruct (decide (wrap32 (started (srv (st σ)) + 1) = 1)) as [H|H].
  - left. rewrite (Start_first _ H). simpl. rewrite drop_length_app.
    destruct (startEvents_launches (listeners (srv (st σ))))
      as (-> & -> & -> & Hr).
    by rewrite listReplies_app, Hr, app_nil_r.
  - right. rewrite (Start_again _ H). simpl. rewrite drop_all. simpl.
    by rewrite !app_nil_r.
Qed.

Lemma countb_accepters_launched (ls : list Listener) :
  countb aliveAccepter ((λ x, (x, ALoop)) <$> ls) = length ls.
Proof.
  induction ls as [|x ls IH]; [done|].
  rewrite fmap_cons. cbn [countb]. by rewrite IH.
Qed.

Lemma sys_inv_init (privKey : Z) (ls : list Listener) :
  sys_inv (initSys privKey ls).
Proof. split; [done|]. intros c Hc. discriminate. Qed.

Ltac count_insert f :=
  match goal with
  | H : ?l !! ?i = Some ?x |- context [countb f (<[?i := ?y]> ?l)] =>
      pose proof (countb_insert f l i x y H)
  end.

Ltac keep_reply Hrecv :=
  let c := fresh "c" in let Hc := fresh "Hc" in
  let i := fresh "i" in let sl := fresh "sl" in let Hi := fresh "Hi" in
  intros c Hc; destruct (Hrecv c Hc) as (i & sl & Hi); exists i, sl.

Lemma sys_inv_step l σ σ' :
  step env ord l σ = Some σ' → sys_inv σ → sys_inv σ'.
Proof.
  intros Hstep [Hwg Hrecv].
  destruct l; simpl in Hstep; repeat case_match; simplify_eq;
    unfold sys_inv, alive in *; simpl; rewrite ?runCode_caller.
  - (* Start *)
    destruct (runCode_Start σ) as [(_ & -> & -> & -> & -> & _)
                                  |(_ & -> & -> & -> & -> & _)]; [|done].
    rewrite !countb_app, countb_accepters_launched. simpl.
    split; [lia|]. keep_reply Hrecv. by apply lookup_app_l_Some.
  - (* Stop, entering the wait *)
    by destruct (runCode_plain Stop σ plain_Stop) as (-> & -> & -> & -> & _).
  - (* Stop, returning at once *)
    by destruct (runCode_plain Stop σ plain_Stop) as (-> & -> & -> & -> & _).
  - done.
  - by split.
  - by split.
  - (* a list query is taken *)
    destruct (runCode_handleListPeers (mkListPeersMsg c) σ)
      as (-> & -> & -> & ->).
    split; [count_insert aliveHandler; simpl in *; lia|].
    intros c1 [= <-]. eexists _, _. apply list_lookup_insert_eq.
    by eapply lookup_lt_Some.
  - (* the reply is handed over *)
    split; [count_insert aliveHandler; simpl in *; lia|done].
  - by destruct (runCode_handleConnectPeer msg σ) as (-> & -> & -> & -> & _).
  - by rewrite runCode_ret.
  - (* a query handler returns *)
    destruct (runCode_wgAdd (-1) σ) as (_ & -> & -> & -> & _).
    split; [count_insert aliveHandler; simpl in *; lia|].
    keep_reply Hrecv. rewrite list_lookup_insert_ne; [done|].
    intros ->. congruence.
  - by destruct (runCode_plain _ σ (plain_dialPeer c))
      as (-> & -> & -> & -> & _).
  - by destruct (runCode_plain _ σ plain_managerNewPeer)
      as (-> & -> & -> & -> & _).
  - by destruct (runCode_plain _ σ plain_managerDonePeer)
      as (-> & -> & -> & -> & _).
  - (* a peer manager returns *)
    destruct (runCode_wgAdd (-1) σ) as (-> & _ & -> & -> & _).
    split; [count_insert (λ b : bool, b); simpl in *; lia|done].
  - split; [count_insert aliveAccepter; simpl in *; lia|done].
  - destruct (runCode_plain _ σ (plain_listenerAccept acc))
      as (-> & -> & _ & -> & _).
    split; [count_insert aliveAccepter; simpl in *; lia|done].
  - (* a listener returns *)
    destruct (runCode_wgAdd (-1) σ) as (-> & -> & _ & -> & _).
    split; [count_insert aliveAccepter; simpl in *; lia|done].
  - done.
  - done.
Qed.

Lemma sys_inv_run (ls : list label) : ∀ σ σ',
  run env ord ls σ = Some σ' → sys_inv σ → sys_inv σ'.
Proof.
  induction ls as [|l ls IH]; intros σ σ' Hrun Hinv; simplify_eq/=; [done|].
  destruct (step env ord l σ) as [σ1|] eqn:Hstep; [|done].
  eapply IH; [done|]. by eapply sys_inv_step.
Qed.

(** The registry stores every peer under its own id, in every state the
    system reaches. *)
Lemma registers_keyed w w' :
  registers w w' → peers_keyed (srv w) → peers_keyed (srv w').
Proof.
  intros Hr Hkey k p Hp. destruct (Hr k p Hp) as [Hp'|Hp']; [|done].
  by apply Hkey.
Qed.

Lemma registers_same w w' : peers (srv w') = peers (srv w) → registers w w'.
Proof. intros Heq k p Hp. left. by rewrite <- Heq. Qed.

Lemma registers_Start w : registers w (exec Start w).
Proof.
  apply registers_same. unfold exec.
  destruct (decide (wrap32 (started (srv w) + 1) = 1)) as [H|H].
  - by rewrite (Start_first _ H).
  - by rewrite (Start_again _ H).
Qed.

Lemma registers_Stop w : registers w (exec Stop w).
Proof.
  apply registers_same. unfold exec.
  destruct (decide (wrap32 (shutdown (srv w) + 1) = 1)) as [H|H].
  - by rewrite (Stop_first _ H).
  - by rewrite (Stop_again _ H).
Qed.

Lemma registers_handleListPeers (msg : listPeersMsg) w :
  registers w (exec (handleListPeers ord msg) w).
Proof. apply registers_same. unfold exec. by rewrite handleListPeers_run. Qed.

Lemma registers_handleConnectPeer (msg : connectPeerMsg) w :
  registers w (exec (handleConnectPeer ord msg) w).
Proof. apply registers_same. unfold exec. by rewrite handleConnectPeer_run. Qed.

Lemma registers_dialPeer (msg : connectPeerMsg) w :
  registers w (exec (dialPeer env msg) w).
Proof.
  apply registers_same. unfold dialPeer, sendNewPeers. step_code; done.
Qed.

Lemma registers_listenerAccept (acc : Conn + error) w :
  registers w (exec (listenerAccept env acc) w).
Proof.
  apply registers_same. unfold listenerAccept, sendNewPeers. step_code; done.
Qed.

Lemma registers_managerNewPeer w : registers w (exec managerNewPeer w).
Proof.
  unfold managerNewPeer, addPeer.
  step_code; try (by apply registers_same).
  intros k q. simpl. rewrite lookup_insert.
  destruct (decide (peer_id p = k)) as [<-|Hne]; [|by left].
  intros [= <-]. by right.
Qed.

Lemma registers_managerDonePeer w : registers w (exec managerDonePeer w).
Proof.
  unfold managerDonePeer, removePeer.
  step_code; try (by apply registers_same).
  intros k q. simpl. rewrite lookup_delete.
  destruct (decide (peer_id p = k)); [done|by left].
Qed.

Local Hint Resolve registers_Start registers_Stop registers_handleListPeers
  registers_handleConnectPeer registers_dialPeer registers_listenerAccept
  registers_managerNewPeer registers_managerDonePeer : grows.

Lemma peers_keyed_step l σ σ' :
  step env ord l σ = Some σ' →
  peers_keyed (srv (st σ)) → peers_keyed (srv (st σ')).
Proof.
  intros Hstep Hkey.
  destruct l; simpl in Hstep; repeat case_match; simplify_eq; simpl;
    rewrite ?runCode_st; try done;
    by (eapply registers_keyed; [|exact Hkey]; auto with grows).
Qed.

Lemma peers_keyed_run (ls : list label) : ∀ σ σ',
  run env ord ls σ = Some σ' →
  peers_keyed (srv (st σ)) → peers_keyed (srv (st σ')).
Proof.
  induction ls as [|l ls IH]; intros σ σ' Hrun Hkey; simplify_eq/=; [done|].
  destruct (step env ord l σ) as [σ1|] eqn:Hstep; [|done].
  eapply IH; [done|]. by eapply peers_keyed_step.
Qed.

Lemma peers_keyed_reachable (privKey : Z) (lns : list Listener)
    (ls : list label) σ :
  run env ord ls (initSys privKey lns) = Some σ → peers_keyed (srv (st σ)).
Proof.
  intros Hrun. eapply peers_keyed_run; [done|].
  intros k p Hp. simpl in Hp. by rewrite lookup_empty in Hp.
Qed.

(** *** After the teardown *)

(** Query handlers are launched, never dropped. *)
Lemma handlers_length_step l σ σ' :
  step env ord l σ = Some σ' →
  (length (handlers σ) ≤ length (handlers σ'))%nat.
Proof.
  intros Hstep.
  destruct l; simpl in Hstep; repeat case_match; simplify_eq; simpl;
    rewrite ?length_insert, ?runCode_handlers, ?length_app; lia.
Qed.

Lemma handlers_length_run (ls : list label) : ∀ σ σ',
  run env ord ls σ = Some σ' →
  (length (handlers σ) ≤ length (handlers σ'))%nat.
Proof.
  induction ls as [|l ls IH]; intros σ σ' Hrun; simplify_eq/=; [done|].
  destruct (step env ord l σ) as [σ1|] eqn:Hstep; [|done].
  apply handlers_length_step in Hstep. apply IH in Hrun. lia.
Qed.

(** When the wait of [Stop] returns, every query handler has returned. *)
Lemma stop_return_no_handler σ σ' :
  sys_inv σ → step env ord LStopReturn σ = Some σ' → no_handler σ'.
Proof.
  intros [Hwg Hrecv] Hstep. simpl in Hstep.
  repeat case_match; simplify_eq. unfold no_handler. simpl.
  assert (Hall : Forall (λ h, h = HDone) (handlers σ)).
  { unfold alive in Hwg.
    assert (Hz : countb aliveHandler (handlers σ) = 0%nat) by lia.
    apply countb_zero in Hz. eapply Forall_impl; [exact Hz|].
    by intros []. }
  split; [done|]. intros c Hc. destruct (Hrecv c Hc) as (i & sl & Hi).
  by apply (Forall_lookup_1 _ _ _ _ Hall) in Hi.
Qed.

(** With no query handler left and none launched, a move answers no list
    query and moves the caller at most into its send. *)
Lemma no_handler_step l σ σ' :
  step env ord l σ = Some σ' →
  no_handler σ →
  length (handlers σ') = length (handlers σ) →
  no_handler σ'
  ∧ listReplies (trace (st σ')) = listReplies (trace (st σ))
  ∧ (caller σ' = caller σ
     ∨ (∃ c, caller σ' = CSend c) ∧ ∀ c, caller σ ≠ CSend c).
Proof.
  intros Hstep [Hall Hcaller] Hlen. unfold no_handler.
  destruct l; simpl in Hstep; repeat case_match; simplify_eq; simpl in *;
    rewrite ?runCode_caller;
    try match goal with
      | H : handlers _ !! _ = Some _ |- _ =>
          by apply (Forall_lookup_1 _ _ _ _ Hall) in H
      end.
  - (* Start *)
    destruct (runCode_Start σ) as [(_ & Hh & _)|(_ & -> & _ & _ & _ & ->)].
    + rewrite Hh, length_app in Hlen. simpl in Hlen. lia.
    + auto.
  - destruct (runCode_plain Stop σ plain_Stop) as (-> & _ & _ & _ & ->). auto.
  - destruct (runCode_plain Stop σ plain_Stop) as (-> & _ & _ & _ & ->). auto.
  - auto.
  - split; [split; [done|intros ?; discriminate]|]. split; [done|].
    right. split; [by eexists|]. intros c' Hc'. congruence.
  - split; [split; [done|intros ?; discriminate]|]. split; [done|].
    right. split; [by eexists|]. intros c' Hc'. congruence.
  - destruct (runCode_plain _ σ (plain_dialPeer c)) as (-> & _ & _ & _ & ->).
    auto.
  - destruct (runCode_plain _ σ plain_managerNewPeer) as (-> & _ & _ & _ & ->).
    auto.
  - destruct (runCode_plain _ σ plain_managerDonePeer)
      as (-> & _ & _ & _ & ->).
    auto.
  - destruct (runCode_wgAdd (-1) σ) as (-> & _ & _ & _ & ->). auto.
  - auto.
  - destruct (runCode_plain _ σ (plain_listenerAccept acc))
      as (-> & _ & _ & _ & ->).
    auto.
  - destruct (runCode_wgAdd (-1) σ) as (-> & _ & _ & _ & ->). auto.
  - auto.
  - auto.
Qed.

Lemma no_handler_run (ls : list label) : ∀ σ σ',
  run env ord ls σ = Some σ' →
  no_handler σ →
  length (handlers σ') = length (handlers σ) →
  no_handler σ'
  ∧ listReplies (trace (st σ')) = listReplies (trace (st σ))
  ∧ ∀ c, caller σ = CSend c → caller σ' = CSend c.
Proof.
  induction ls as [|l ls IH]; intros σ σ' Hrun Hno Hlen; simplify_eq/=;
    [done|].
  destruct (step env ord l σ) as [σ1|] eqn:Hstep; [|done].
  pose proof (handlers_length_step _ _ _ Hstep) as Hle1.
  pose proof (handlers_length_run _ _ _ Hrun) as Hle2.
  destruct (no_handler_step _ _ _ Hstep Hno) as (Hno1 & Hrep1 & Hc1); [lia|].
  destruct (IH _ _ Hrun Hno1) as (Hno' & Hrep' & Hc'); [lia|].
  split; [done|]. split; [congruence|].
  intros c Hc. apply Hc'. destruct Hc1 as [->|[_ Hne]]; [done|].
  by destruct (Hne c).
Qed.

Lemma run_app (ls ls' : list label) : ∀ σ,
  run env ord (ls ++ ls') σ
  = match run env ord ls σ with
    | Some σ' => run env ord ls' σ'
    | None => None
    end.
Proof.
  induction ls as [|l ls IH]; intros σ; simpl; [done|].
  destruct (step env ord l σ); [apply IH|done].
Qed.

(** C10, as amended.  Take a [Stop()] that went through the whole teardown
    and whose wait has returned: every query handler has exited.  For as
    long as no query handler is launched after that return, a call of
    [Peers()] made after it stays at its send on [queries]: it never reaches
    the receive, never returns, and no reply to a list query is sent. *)
Theorem Peers_after_Stop (privKey : Z) (ls : list Listener)
    (pre post post' : list label) (c : chan) (σ0 σ1 σ2 : sys) :
  run env ord pre (initSys privKey ls) = Some σ0 →
  step env ord LStopReturn σ0 = Some σ1 →
  run env ord (post ++ LPeers c :: post') σ1 = Some σ2 →
  length (handlers σ2) = length (handlers σ1) →
  caller σ2 = CSend c
  ∧ listReplies (trace (st σ2)) = listReplies (trace (st σ1))
  ∧ Forall (λ h, h = HDone) (handlers σ2).
Proof.
  intros Hpre Hret Hrun Hlen.
  assert (Hno1 : no_handler σ1).
  { eapply stop_return_no_handler; [|done].
    eapply sys_inv_run; [done|apply sys_inv_init]. }
  rewrite run_app in Hrun.
  destruct (run env ord post σ1) as [σa|] eqn:Hpost; [|done].
  cbn [run] in Hrun.
  destruct (step env ord (LPeers c) σa) as [σb|] eqn:Hcall; [|done].
  pose proof (handlers_length_run _ _ _ Hpost) as Hle1.
  pose proof (handlers_length_step _ _ _ Hcall) as Hle2.
  pose proof (handlers_length_run _ _ _ Hrun) as Hle3.
  destruct (no_handler_run _ _ _ Hpost Hno1) as (Hnoa & Hrepa & _); [lia|].
  destruct (no_handler_step _ _ _ Hcall Hnoa) as (Hnob & Hrepb & _); [lia|].
  destruct (no_handler_run _ _ _ Hrun Hnob) as (Hno2 & Hrep2 & Hc2); [lia|].
  split; [|split; [congruence|apply Hno2]].
  apply Hc2. simpl in Hcall. by repeat case_match; simplify_eq.
Qed.

End goroutines.

(** C2, counterexample.  A peer is accepted and registered, a channel is
    recorded for it, and the peer finishes: the invariant holds until the
    peer manager removes the peer, and then the index still has the entry
    while the id is gone from the peer map. *)
Lemma chanIndex_removePeer_counterexample :
  run envUp default_order indexRun (initSys 5 [lnOk]) = Some sysIndexed
  ∧ chan_inv (srv (st sysIndexed))
  ∧ step envUp default_order (LManagerDone 0) sysIndexed = Some sysRemoved
  ∧ chanIndex (srv (st sysRemoved)) !! (1%N, 0%N) = Some peerC
  ∧ peers (srv (st sysRemoved)) !! peer_id peerC = None
  ∧ ¬ chan_inv (srv (st sysRemoved)).
Proof.
  split; [by vm_compute|].
  split; [apply (bool_decide_unpack _); by vm_compute|].
  split; [by vm_compute|].
  split; [by vm_compute|].
  split; [by vm_compute|].
  intros Hinv. specialize (Hinv (1%N, 0%N) peerC eq_refl).
  vm_compute in Hinv. by destruct Hinv.
Qed.

(** C10, counterexample.  A listener fails to close, so [Stop()] returns its
    error without closing [quit]: the query handler is still at its
    [select], and a call of [Peers()] made after that return is served and
    returns. *)
Lemma Peers_after_Stop_counterexample :
  stopReturns <$> run envUp default_order [LStart; LStop] (initSys 5 [lnBad])
  = Some [Some "close failed"]
  ∧ caller <$> run envUp default_order [LStart; LStop] (initSys 5 [lnBad])
    = Some CIdle
  ∧ run envUp default_order servedRun (initSys 5 [lnBad]) = Some sysServed
  ∧ stopReturns sysServed = [Some "close failed"]
  ∧ caller sysServed = CReturned (mkSlice 1 0 0)
  ∧ listReplies (trace (st sysServed)) = [EvSendPeers 20 (mkSlice 1 0 0)].
Proof. by vm_compute. Qed.

(** * The statements at sample states *)

(** [addPeer] on a server that is shutting down, and on a running one. *)
Lemma addPeer_spec_witness :
  exec (addPeer None) worldAB_down = worldAB_down
  ∧ (shutdown (srv worldAB_down) ≠ 0
     ∧ peers (srv (exec (addPeer (Some peerC)) worldAB_down))
       = peers (srv worldAB_down)
     ∧ events_of (addPeer (Some peerC)) worldAB_down = [EvPeerStop peerC])
  ∧ (shutdown (srv worldAB) = 0
     ∧ peers (srv (exec (addPeer (Some peerC)) worldAB)) !! peer_id peerC
       = Some peerC
     ∧ events_of (addPeer (Some peerC)) worldAB = []).
Proof.
  split; [apply (addPeer_spec worldAB_down)|]. split.
  - assert (Hs : shutdown (srv worldAB_down) ≠ 0) by (simpl; lia).
    split; [exact Hs|].
    destruct (addPeer_spec worldAB_down) as (_ & Hdown & _).
    destruct (Hdown peerC Hs) as (H1 & _ & H3). by split.
  - assert (Hs : shutdown (srv worldAB) = 0) by reflexivity.
    split; [exact Hs|].
    destruct (addPeer_spec worldAB) as (_ & _ & Hup).
    destruct (Hup peerC Hs) as (H1 & _ & H3). by split.
Defined.

(** [removePeer] of a peer that is not registered, twice in a row, and
    on a server that is shutting down. *)
Lemma removePeer_spec_witness :
  (peers (srv worldAB) !! peer_id peerC = None
   ∧ shutdown (srv worldAB) = 0
   ∧ exec (removePeer (Some peerC)) worldAB = worldAB
   ∧ exec (removePeer (Some peerA)) (exec (removePeer (Some peerA)) worldAB)
     = exec (removePeer (Some peerA)) worldAB)
  ∧ (shutdown (srv worldAB_down) ≠ 0
     ∧ srv (exec (removePeer (Some peerA)) worldAB_down) = srv worldAB_down
     ∧ events_of (removePeer (Some peerA)) worldAB_down = [EvPeerStop peerA]).
Proof.
  split.
  - assert (Hn : peers (srv worldAB) !! peer_id peerC = None)
      by (vm_compute; reflexivity).
    assert (Hs : shutdown (srv worldAB) = 0) by reflexivity.
    split; [exact Hn|]. split; [exact Hs|]. split.
    + destruct (removePeer_spec worldAB peerC) as (_ & Hrun & _).
      exact (proj1 (Hrun Hs) Hn).
    + destruct (removePeer_spec worldAB peerA) as (_ & Hrun & _).
      exact (proj2 (Hrun Hs)).
  - assert (Hs : shutdown (srv worldAB_down) ≠ 0) by (simpl; lia).
    split; [exact Hs|].
    destruct (removePeer_spec worldAB_down peerA) as (_ & _ & Hdown).
    exact (Hdown Hs).
Defined.


(** The second of two listeners fails to close. *)
Lemma Stop_listener_error_witness :
  EvListenerClose lnBad ∈ events_of Stop (initWorld 5 [lnOk; lnBad])
  ∧ l_close lnBad = Some "close failed"
  ∧ result Stop (initWorld 5 [lnOk; lnBad]) = Returns (Some "close failed")
  ∧ last (events_of Stop (initWorld 5 [lnOk; lnBad]))
    = Some (EvListenerClose lnBad)
  ∧ (EvCloseQuit ∉ events_of Stop (initWorld 5 [lnOk; lnBad]))
  ∧ quit (srv (exec Stop (initWorld 5 [lnOk; lnBad]))) = false.
Proof.
  assert (Hin : EvListenerClose lnBad
                ∈ events_of Stop (initWorld 5 [lnOk; lnBad])).
  { apply (bool_decide_unpack _). vm_compute. exact I. }
  assert (Hl : l_close lnBad = Some "close failed") by reflexivity.
  split; [exact Hin|]. split; [exact Hl|].
  destruct (Stop_listener_error (initWorld 5 [lnOk; lnBad]) lnBad
              "close failed" Hin Hl)
    as (H1 & H2 & _ & _ & _ & H6 & _ & H8).
  split; [exact H1|]. split; [exact H2|]. split; [exact H6|exact H8].
Defined.

(** A dial to an unreachable endpoint. *)
Lemma dialPeer_failure_witness :
  conn_Dial envDown (identityPriv (srv worldA)) (NetAddr (addr msgX))
    (remoteIdOf (addr msgX)) = Some "connection refused"
  ∧ events_of (dialPeer envDown msgX) worldA
    = [EvDial 5 "10.0.0.1:10011" [1; 2; 3];
       EvSendErr 11 (Some "connection refused");
       EvSendResp 10 (-1)]
  ∧ peers (srv (exec (dialPeer envDown msgX) worldA)) = peers (srv worldA).
Proof.
  assert (Hd : conn_Dial envDown (identityPriv (srv worldA))
                 (NetAddr (addr msgX)) (remoteIdOf (addr msgX))
               = Some "connection refused") by reflexivity.
  split; [exact Hd|].
  destruct (dialPeer_failure envDown msgX worldA "connection refused" Hd)
    as (H1 & H2 & _).
  split; [exact H1|exact H2].
Defined.

(** A list query on a registry of two peers. *)
Lemma handleListPeers_snapshot_witness :
  peers_keyed (srv worldAB)
  ∧ ∃ (sl : slice) (reply : list peer),
      events_of (handleListPeers default_order (mkListPeersMsg 20)) worldAB
      = [EvSendPeers 20 sl]
      ∧ slice_elems
          (heap (exec (handleListPeers default_order (mkListPeersMsg 20))
                   worldAB)) sl
        = Some <$> reply
      ∧ NoDup (peer_id <$> reply)
      ∧ length reply = size (peers (srv worldAB))
      ∧ s_arr sl ∉ dom (heap worldAB).
Proof.
  assert (Hkey : peers_keyed (srv worldAB)).
  { apply (bool_decide_unpack
             (map_Forall (λ k p, peer_id p = k) (peers (srv worldAB)))).
    vm_compute. exact I. }
  split; [exact Hkey|].
  destruct (handleListPeers_snapshot default_order (mkListPeersMsg 20)
              (mkListPeersMsg 21) worldAB Hkey)
    as (sl & reply & H1 & H2 & _ & H4 & H5 & _ & H7 & _).
  exists sl, reply.
  split; [exact H1|]. split; [exact H2|]. split; [exact H4|].
  split; [exact H5|exact H7].
Defined.

(** [Stop] on a new server, and again after five more calls. *)
Lemma Stop_one_shot_witness :
  shutdown (srv (initWorld 5 [lnOk])) = 0
  ∧ quit (srv (initWorld 5 [lnOk])) = false
  ∧ result Stop (initWorld 5 [lnOk]) = Returns None
  ∧ events_of Stop (initWorld 5 [lnOk])
    = EvListenerClose lnOk :: teardownTail false
  ∧ (5 < 2 ^ 32 - 1)%N
  ∧ result Stop (StopN 5 (exec Stop (initWorld 5 [lnOk]))) = Returns None
  ∧ events_of Stop (StopN 5 (exec Stop (initWorld 5 [lnOk]))) = [].
Proof.
  assert (Hs : shutdown (srv (initWorld 5 [lnOk])) = 0) by reflexivity.
  assert (Hq : quit (srv (initWorld 5 [lnOk])) = false) by reflexivity.
  assert (Hn : (5 < 2 ^ 32 - 1)%N) by reflexivity.
  split; [exact Hs|]. split; [exact Hq|].
  destruct (Stop_one_shot (initWorld 5 [lnOk]) Hs Hq)
    as (H1 & H2 & _ & Hlater).
  split; [exact H1|]. split; [exact H2|]. split; [exact Hn|].
  destruct (Hlater 5%N Hn) as (H5 & H6 & _).
  split; [exact H5|exact H6].
Defined.

(** The peer manager removes a peer that has a channel in the index. *)
Lemma chanIndex_steps_witness :
  step envUp default_order (LManagerDone 0) sysIndexed = Some sysRemoved
  ∧ head (donePeers (srv (st sysIndexed))) = Some peerC
  ∧ shutdown (srv (st sysIndexed)) = 0
  ∧ chanIndex (srv (st sysRemoved)) = chanIndex (srv (st sysIndexed))
  ∧ peers (srv (st sysRemoved))
    = delete (peer_id peerC) (peers (srv (st sysIndexed))).
Proof.
  assert (Hstep : step envUp default_order (LManagerDone 0) sysIndexed
                  = Some sysRemoved) by (vm_compute; reflexivity).
  assert (Hhd : head (donePeers (srv (st sysIndexed))) = Some peerC)
    by (vm_compute; reflexivity).
  assert (Hs : shutdown (srv (st sysIndexed)) = 0)
    by (vm_compute; reflexivity).
  split; [exact Hstep|]. split; [exact Hhd|]. split; [exact Hs|].
  destruct (chanIndex_steps envUp default_order (LManagerDone 0)
              sysIndexed sysRemoved Hstep) as (H1 & _ & _ & H4).
  split.
  - apply H1. intros op p H. discriminate H.
  - exact (H4 0%nat peerC eq_refl Hhd Hs).
Defined.

(** [Stop] runs the whole teardown and returns; then come another [Stop], a
    call of [Peers()], a finished peer and another [Start]. *)
Lemma Peers_after_Stop_witness :
  run envUp default_order stoppedRun (initSys 5 [lnOk]) = Some sysStopping
  ∧ step envUp default_order LStopReturn sysStopping = Some sysStopped
  ∧ run envUp default_order ([LStop] ++ LPeers 20 :: lateRun) sysStopped
    = Some sysBlocked
  ∧ length (handlers sysBlocked) = length (handlers sysStopped)
  ∧ caller sysBlocked = CSend 20
  ∧ listReplies (trace (st sysBlocked)) = listReplies (trace (st sysStopped)).
Proof.
  assert (Hpre : run envUp default_order stoppedRun (initSys 5 [lnOk])
                 = Some sysStopping) by (vm_compute; reflexivity).
  assert (Hret : step envUp default_order LStopReturn sysStopping
                 = Some sysStopped) by (vm_compute; reflexivity).
  assert (Hrun : run envUp default_order ([LStop] ++ LPeers 20 :: lateRun)
                   sysStopped = Some sysBlocked) by (vm_compute; reflexivity).
  assert (Hlen : length (handlers sysBlocked) = length (handlers sysStopped))
    by (vm_compute; reflexivity).
  split; [exact Hpre|]. split; [exact Hret|]. split; [exact Hrun|].
  split; [exact Hlen|].
  destruct (Peers_after_Stop envUp default_order 5 [lnOk] stoppedRun [LStop]
              lateRun 20 sysStopping sysStopped sysBlocked Hpre Hret Hrun Hlen)
    as (H1 & H2 & _).
  split; [exact H1|exact H2].
Defined.

(** * The rest of the server *)

(** ** Construction: [getIdentityPrivKey] and [newServer] *)

(** [getIdentityPrivKey] yields a key exactly when the database names an
    address that the wallet holds as a public-key address whose private key
    can be read, and then it is that key.  When the database fails the
    wallet is not asked at all; the wallet is only ever asked for the
    address the database named; and the call panics exactly when the wallet
    holds that address as an address of another kind. *)
Theorem getIdentityPrivKey_spec (ks : KeyStore) :
  (∀ k, (getIdentityPrivKey ks).1 = Ok k
        ↔ ∃ adr pub, GetIdAdr ks = inl adr
            ∧ ManagerAddress ks adr = inl (ManagedPubKeyAddress pub (inl k)))
  ∧ (∀ e, GetIdAdr ks = inr e →
          getIdentityPrivKey ks = (Err e, [CGetIdAdr]))
  ∧ (∀ adr, CManagerAddress adr ∈ (getIdentityPrivKey ks).2 →
            GetIdAdr ks = inl adr)
  ∧ ((getIdentityPrivKey ks).1 = Panicked
     ↔ ∃ adr, GetIdAdr ks = inl adr
         ∧ ManagerAddress ks adr = inl ManagedOtherAddress).
Proof.
  unfold getIdentityPrivKey.
  destruct (GetIdAdr ks) as [adr|e0] eqn:Hdb.
  - destruct (ManagerAddress ks adr) as [[pub [k0|e1]|]|e1] eqn:Hw; simpl.
    + split; [|split; [done|split]].
      * intros k. split.
        -- intros [= <-]. by exists adr, pub.
        -- intros (adr' & pub' & [= <-] & Hw'). congruence.
      * intros adr' Hin.
        apply elem_of_cons in Hin as [?|Hin]; [done|].
        apply elem_of_cons in Hin as [[= ->]|Hin]; [done|].
        apply elem_of_cons in Hin as [?|Hin]; [done|].
        by apply elem_of_nil in Hin.
      * split; [done|]. intros (adr' & [= <-] & Hw'). congruence.
    + split; [|split; [done|split]].
      * intros k. split; [done|].
        intros (adr' & pub' & [= <-] & Hw'). congruence.
      * intros adr' Hin.
        apply elem_of_cons in Hin as [?|Hin]; [done|].
        apply elem_of_cons in Hin as [[= ->]|Hin]; [done|].
        apply elem_of_cons in Hin as [?|Hin]; [done|].
        by apply elem_of_nil in Hin.
      * split; [done|]. intros (adr' & [= <-] & Hw'). congruence.
    + split; [|split; [done|split]].
      * intros k. split; [done|].
        intros (adr' & pub' & [= <-] & Hw'). congruence.
      * intros adr' Hin.
        apply elem_of_cons in Hin as [?|Hin]; [done|].
        apply elem_of_cons in Hin as [[= ->]|Hin]; [done|].
        by apply elem_of_nil in Hin.
      * split; [intros _; by exists adr|done].
    + split; [|split; [done|split]].
      * intros k. split; [done|].
        intros (adr' & pub' & [= <-] & Hw'). congruence.
      * intros adr' Hin.
        apply elem_of_cons in Hin as [?|Hin]; [done|].
        apply elem_of_cons in Hin as [[= ->]|Hin]; [done|].
        by apply elem_of_nil in Hin.
      * split; [done|]. intros (adr' & [= <-] & Hw'). congruence.
  - simpl. split; [|split; [by intros e [= ->]|split]].
    + intros k. split; [done|]. by intros (adr & pub & ? & _).
    + intros adr Hin. apply elem_of_cons in Hin as [?|Hin]; [done|].
      by apply elem_of_nil in Hin.
    + split; [done|]. by intros (adr & ? & _).
Qed.

Section construction.
Context (listen : Z → string → Listener + error) (privKey : Z).
Implicit Types (listenAddrs : list string) (ls : list Listener).

Lemma listenedOn_app (log log' : list cevent) :
  listenedOn (log ++ log') = listenedOn log ++ listenedOn log'.
Proof. unfold listenedOn. apply omap_app. Qed.

Lemma openListeners_ok listenAddrs : ∀ ls log,
  openListeners listen privKey listenAddrs = (inl ls, log) →
  Forall2 (λ a l, listen privKey a = inl l) listenAddrs ls
  ∧ log = CNewListener privKey <$> listenAddrs.
Proof.
  induction listenAddrs as [|a rest IH]; intros ls log Hopen; simpl in Hopen.
  - by simplify_eq.
  - destruct (listen privKey a) as [l|e] eqn:Hl; [|done].
    destruct (openListeners listen privKey rest) as [[ls'|e] log'] eqn:Hrest;
      simplify_eq.
    destruct (IH ls' log' eq_refl) as [Hall ->].
    split; [by constructor|done].
Qed.

Lemma openListeners_error (pre : list string) (a : string)
    (post : list string) (e : error) :
  Forall (λ x, ∃ l, listen privKey x = inl l) pre →
  listen privKey a = inr e →
  openListeners listen privKey (pre ++ a :: post)
  = (inr e, CNewListener privKey <$> (pre ++ [a])).
Proof.
  intros Hpre Ha. induction Hpre as [|x pre [l Hx] _ IH]; simpl.
  - by rewrite Ha.
  - by rewrite Hx, IH.
Qed.

Lemma listenedOn_listeners (addrs : list string) :
  listenedOn (CNewListener privKey <$> addrs) = addrs.
Proof.
  unfold listenedOn. induction addrs as [|a addrs IH]; [done|].
  rewrite fmap_cons. cbn [omap list_omap]. by rewrite IH.
Qed.

End construction.

Lemma listenedOn_key (ks : KeyStore) :
  listenedOn (getIdentityPrivKey ks).2 = [].
Proof.
  unfold getIdentityPrivKey.
  destruct (GetIdAdr ks) as [adr|]; [|done].
  by destruct (ManagerAddress ks adr) as [[pub [|]|]|].
Qed.

(** When [newServer] returns a server, its key is the one retrieved, it has
    one listener per listen address, in the order of the addresses and
    each the one opened for that address with that key, and nothing else was
    listened on; the server is new: no peer, no channel, empty queues, both
    counters at 0 and [quit] open. *)
Theorem newServerCall_ok (ks : KeyStore)
    (listen : Z → string → Listener + error) (listenAddrs : list string)
    (s : server) (log : list cevent) :
  newServerCall ks listen listenAddrs = (Ok s, log) →
  (getIdentityPrivKey ks).1 = Ok (identityPriv s)
  ∧ Forall2 (λ a l, listen (identityPriv s) a = inl l) listenAddrs
      (listeners s)
  ∧ length (listeners s) = length listenAddrs
  ∧ listenedOn log = listenAddrs
  ∧ peers s = ∅ ∧ chanIndex s = ∅ ∧ newPeers s = [] ∧ donePeers s = []
  ∧ started s = 0 ∧ shutdown s = 0 ∧ wg s = 0 ∧ quit s = false.
Proof.
  unfold newServerCall. intros Hnew.
  destruct (getIdentityPrivKey ks) as [[k|e|] klog] eqn:Hkey; [|done..].
  destruct (openListeners listen k listenAddrs) as [[ls|e] llog] eqn:Hopen;
    simplify_eq/=.
  destruct (openListeners_ok _ _ _ _ _ Hopen) as [Hall ->].
  split; [done|]. split; [done|].
  split; [symmetry; by eapply Forall2_length|].
  split; [|done].
  rewrite !listenedOn_app, listenedOn_listeners.
  pose proof (listenedOn_key ks) as Hk. rewrite Hkey in Hk. simpl in Hk.
  rewrite Hk. simpl. by rewrite app_nil_r.
Qed.

(** When the key cannot be retrieved, [newServer] returns that error and
    opens no listener. *)
Theorem newServerCall_key_error (ks : KeyStore)
    (listen : Z → string → Listener + error) (listenAddrs : list string)
    (e : error) :
  (getIdentityPrivKey ks).1 = Err e →
  (newServerCall ks listen listenAddrs).1 = Err e
  ∧ listenedOn (newServerCall ks listen listenAddrs).2 = []
  ∧ (CNewFundingManager ∉ (newServerCall ks listen listenAddrs).2)
  ∧ (CNewRpcServer ∉ (newServerCall ks listen listenAddrs).2).
Proof.
  intros Hkey. unfold newServerCall.
  pose proof (listenedOn_key ks) as Hk.
  revert Hkey Hk. unfold getIdentityPrivKey.
  destruct (GetIdAdr ks) as [adr|e0]; simpl.
  - destruct (ManagerAddress ks adr) as [[pub [k0|e1]|]|e1]; simpl;
      intros [= <-] _; repeat split; try done;
      intros Hin; repeat (apply elem_of_cons in Hin as [?|Hin]; [done|]);
      by apply elem_of_nil in Hin.
  - intros [= <-] _. repeat split; try done;
      intros Hin; repeat (apply elem_of_cons in Hin as [?|Hin]; [done|]);
      by apply elem_of_nil in Hin.
Qed.

(** When a listen address cannot be opened, [newServer] returns the error
    of the first such address; it has tried the addresses before it and that
    one, in order, and none after it, and neither the funding manager nor
    the RPC server is built. *)
Theorem newServerCall_listener_error (ks : KeyStore)
    (listen : Z → string → Listener + error) (k : Z)
    (pre : list string) (a : string) (post : list string) (e : error) :
  (getIdentityPrivKey ks).1 = Ok k →
  Forall (λ x, ∃ l, listen k x = inl l) pre →
  listen k a = inr e →
  (newServerCall ks listen (pre ++ a :: post)).1 = Err e
  ∧ listenedOn (newServerCall ks listen (pre ++ a :: post)).2 = pre ++ [a]
  ∧ (CNewFundingManager ∉ (newServerCall ks listen (pre ++ a :: post)).2)
  ∧ (CNewRpcServer ∉ (newServerCall ks listen (pre ++ a :: post)).2).
Proof.
  intros Hkey Hpre Ha. unfold newServerCall.
  pose proof (listenedOn_key ks) as Hk.
  destruct (getIdentityPrivKey ks) as [[k'|e'|] klog] eqn:Hget;
    simplify_eq/=.
  rewrite (openListeners_error listen k pre a post e Hpre Ha). simpl.
  rewrite listenedOn_app, Hk, listenedOn_listeners. simpl.
  split; [done|]. split; [done|].
  assert (Hlog : ∀ ev, ev ∈ klog ++ (CNewListener k <$> pre ++ [a]) →
                       ev ≠ CNewFundingManager ∧ ev ≠ CNewRpcServer).
  { intros ev [Hin|Hin]%elem_of_app.
    - revert Hget Hin. unfold getIdentityPrivKey.
      destruct (GetIdAdr ks) as [adr|e0]; [|done].
      destruct (ManagerAddress ks adr) as [[pub [k0|e1]|]|e1];
        intros [= <- <-] Hin;
        repeat (apply elem_of_cons in Hin as [->|Hin]; [done|]);
        by apply elem_of_nil in Hin.
    - apply list_elem_of_fmap in Hin as (x & -> & _). done. }
  split; intros Hin; by destruct (Hlog _ Hin).
Qed.

(** ** Startup: [Start] *)




(** ** The goroutines together *)

Section server_moves.
Context (env : Env) (ord : MapOrder).
Implicit Types (σ : sys) (w : world) (l : label).

Ltac run_code :=
  unfold_monad; simpl; repeat case_match; simpl;
  rewrite <- ?app_assoc; simpl.

(** The wait group counts the goroutines: in every state the server reaches
    from its construction, its counter is the number of listener, peer
    manager and query handler goroutines that have not returned; so it is
    never negative, and no [Done()] panics. *)
Theorem wg_counts_goroutines (privKey : Z) (lns : list Listener)
    (ls : list label) σ :
  run env ord ls (initSys privKey lns) = Some σ →
  wg (srv (st σ)) = Z.of_nat (alive σ) ∧ 0 ≤ wg (srv (st σ)).
Proof.
  intros Hrun.
  destruct (sys_inv_run env ord ls _ _ Hrun (sys_inv_init privKey lns))
    as [Hwg _].
  split; [done|lia].
Qed.

Lemma countb_false {A} (f : A → bool) (xs : list A) :
  Forall (λ x, f x = false) xs → countb f xs = 0%nat.
Proof. induction 1 as [|x xs Hx _ IH]; simpl; [done|]. by rewrite Hx. Qed.

(** [WaitForShutdown] returns exactly when every goroutine launched by
    [Start] has returned; on a server that was never started it returns at
    once. *)
Theorem WaitForShutdown_spec (privKey : Z) (lns : list Listener)
    (ls : list label) σ :
  run env ord ls (initSys privKey lns) = Some σ →
  (WaitForShutdown σ = Some σ
   ↔ Forall (λ h, h = HDone) (handlers σ)
     ∧ Forall (λ b, b = false) (managers σ)
     ∧ Forall (λ a, a.2 = ADone) (accepters σ))
  ∧ (WaitForShutdown σ = None ↔ 0 < wg (srv (st σ)))
  ∧ WaitForShutdown (initSys privKey lns) = Some (initSys privKey lns).
Proof.
  intros Hrun.
  destruct (sys_inv_run env ord ls _ _ Hrun (sys_inv_init privKey lns))
    as [Hwg _].
  unfold WaitForShutdown. split; [|split; [|done]].
  - case_decide as Hz; split; try done.
    + intros _. rewrite Hwg in Hz. unfold alive in Hz.
      assert (H1 : countb aliveHandler (handlers σ) = 0%nat) by lia.
      assert (H2 : countb (λ b : bool, b) (managers σ) = 0%nat) by lia.
      assert (H3 : countb aliveAccepter (accepters σ) = 0%nat) by lia.
      apply countb_zero in H1, H2, H3.
      split; [|split].
      * eapply Forall_impl; [exact H1|]. by intros [].
      * done.
      * eapply Forall_impl; [exact H3|]. intros [ln []]; done.
    + intros (H1 & H2 & H3). exfalso. apply Hz. rewrite Hwg.
      unfold alive.
      rewrite (countb_false aliveHandler), (countb_false (λ b : bool, b)),
        (countb_false aliveAccepter); [done| | |].
      * eapply Forall_impl; [exact H3|].
        intros [ln pc] Hpc. simpl in Hpc. by subst.
      * done.
      * eapply Forall_impl; [exact H1|]. by intros ? ->.
  - case_decide; split; try done; lia.
Qed.

(** *** Who writes the registry *)

Lemma peers_Start w : peers (srv (exec Start w)) = peers (srv w).
Proof.
  unfold exec. destruct (decide (wrap32 (started (srv w) + 1) = 1)) as [H|H].
  - by rewrite (Start_first _ H).
  - by rewrite (Start_again _ H).
Qed.

Lemma peers_Stop w : peers (srv (exec Stop w)) = peers (srv w).
Proof.
  unfold exec. destruct (decide (wrap32 (shutdown (srv w) + 1) = 1)) as [H|H].
  - by rewrite (Stop_first _ H).
  - by rewrite (Stop_again _ H).
Qed.

Lemma peers_handleQuery (q : query) w :
  peers (srv (exec (handleQuery ord q) w)) = peers (srv w).
Proof.
  destruct q as [msg|msg|]; simpl; unfold exec.
  - by rewrite handleConnectPeer_run.
  - by rewrite handleListPeers_run.
  - done.
Qed.

Lemma peers_dialPeer (msg : connectPeerMsg) w :
  peers (srv (exec (dialPeer env msg) w)) = peers (srv w).
Proof. unfold dialPeer, sendNewPeers. run_code; done. Qed.

Lemma peers_listenerAccept (acc : Conn + error) w :
  peers (srv (exec (listenerAccept env acc) w)) = peers (srv w).
Proof. unfold listenerAccept, sendNewPeers. run_code; done. Qed.


Lemma peers_step l σ σ' :
  step env ord l σ = Some σ' →
  (∃ j, l = LManagerNew j) ∨ (∃ j, l = LManagerDone j)
  ∨ peers (srv (st σ')) = peers (srv (st σ)).
Proof.
  intros Hstep.
  destruct l; try (by left; eexists); try (by right; left; eexists);
    right; right;
    simpl in Hstep; repeat case_match; simplify_eq; simpl;
    rewrite ?runCode_st;
    try done;
    try apply peers_Start; try apply peers_Stop;
    try apply (peers_handleQuery (QListPeers _));
    try apply (peers_handleQuery (QConnectPeer _));
    try apply peers_dialPeer; try apply peers_listenerAccept.
Qed.

(** The peer manager is the only writer of the registry: no call of
    [Start] or [Stop], no query, no dial goroutine, no listener and no
    collaborator changes the peer map; only the two cases of the peer
    manager in which it takes a new or a finished peer can. *)
Theorem registry_single_writer l σ σ' :
  step env ord l σ = Some σ' →
  (∀ j, l ≠ LManagerNew j) →
  (∀ j, l ≠ LManagerDone j) →
  peers (srv (st σ')) = peers (srv (st σ)).
Proof.
  intros Hstep Hnew Hdone.
  destruct (peers_step _ _ _ Hstep) as [[j ->]|[[j ->]|Hsame]];
    [by destruct (Hnew j)|by destruct (Hdone j)|done].
Qed.


(** Peer ids are unique in the registry: in every state the server reaches,
    each registered peer is stored under its own id, so two entries with the
    same peer id are the same entry. *)
Theorem registered_ids_unique (privKey : Z) (lns : list Listener)
    (ls : list label) σ (k1 k2 : Z) (p1 p2 : peer) :
  run env ord ls (initSys privKey lns) = Some σ →
  peers (srv (st σ)) !! k1 = Some p1 →
  peers (srv (st σ)) !! k2 = Some p2 →
  peer_id p1 = peer_id p2 →
  k1 = peer_id p1 ∧ k1 = k2 ∧ p1 = p2.
Proof.
  intros Hrun H1 H2 Hid.
  pose proof (peers_keyed_reachable env ord _ _ _ _ Hrun) as Hkey.
  pose proof (Hkey _ _ H1) as E1. pose proof (Hkey _ _ H2) as E2.
  split; [done|]. assert (k1 = k2) as <- by congruence.
  split; [done|congruence].
Qed.

(** *** A list query while the server runs *)

Lemma runCode_list_query (msg : listPeersMsg) σ :
  runCode (handleQuery ord (QListPeers msg)) σ
  = set_st (exec (handleListPeers ord msg) (st σ)) σ.
Proof.
  unfold runCode, events_of, exec. simpl. rewrite handleListPeers_run. simpl.
  by rewrite drop_length_app.
Qed.

Lemma step_list_query (i : nat) (c : chan) σ :
  handlers σ !! i = Some HSelect →
  caller σ = CSend c →
  step env ord (LQueryList i) σ
  = Some (set_caller (CRecv c)
            (set_handlers
               (<[i := HReply c
                         (mkSlice (fresh (dom (heap (st σ))))
                            (size (peers (srv (st σ))))
                            (size (peers (srv (st σ)))))]> (handlers σ))
               (set_st (exec (handleListPeers ord (mkListPeersMsg c)) (st σ))
                  σ))).
Proof.
  intros Hi Hc. unfold step. rewrite Hi, Hc. cbn zeta.
  rewrite runCode_list_query. cbn [st set_st handlers].
  unfold exec. rewrite handleListPeers_run. cbn [snd trace lp_resp].
  by rewrite last_snoc.
Qed.

(** [Peers()] on a running server returns the registry: when a query
    handler is at its [select], the call goes through (the query is taken,
    the reply handed back), the caller returns a slice holding the peers of
    the map, the handler is back at its [select], and the server is as
    before but for the logged reply. *)
Theorem Peers_returns_snapshot (i : nat) (c : chan) σ :
  handlers σ !! i = Some HSelect →
  caller σ = CIdle ∨ (∃ sl, caller σ = CReturned sl) →
  ∃ σ' sl,
    run env ord [LPeers c; LQueryList i; LReply i] σ = Some σ'
    ∧ caller σ' = CReturned sl
    ∧ replyPeers (st σ') sl = Some <$> (range_of ord (peers (srv (st σ)))).*2
    ∧ srv (st σ') = srv (st σ)
    ∧ handlers σ' = handlers σ
    ∧ trace (st σ') = trace (st σ) ++ [EvSendPeers c sl].
Proof.
  intros Hi Hidle.
  assert (Hcall : step env ord (LPeers c) σ = Some (set_caller (CSend c) σ)).
  { simpl. by destruct Hidle as [->|[sl ->]]. }
  eexists _, _. cbn [run]. rewrite Hcall.
  rewrite (step_list_query i c) by done.
  cbn [step handlers caller set_caller set_handlers set_st st].
  rewrite list_lookup_insert_eq by (by eapply lookup_lt_Some).
  rewrite decide_True by done.
  split; [reflexivity|]. cbn [caller set_caller].
  split; [reflexivity|].
  cbn [st set_caller set_handlers set_st handlers].
  unfold replyPeers, slice_elems, exec. rewrite handleListPeers_run.
  cbn [snd heap srv trace s_arr s_len].
  rewrite lookup_insert_eq. cbn [default].
  split.
  { apply take_ge. rewrite !length_fmap, range_of_length. lia. }
  split; [done|]. split; [|done].
  rewrite list_insert_insert_eq. by apply list_insert_id.
Qed.

(** A call of [Peers()] on a server whose goroutines were not launched
    stays at its send on [queries]: as long as no query handler exists, it
    is not served and no reply is sent. *)
Theorem Peers_blocked_before_Start (privKey : Z) (lns : list Listener)
    (pre post : list label) (c : chan) σ :
  run env ord (pre ++ LPeers c :: post) (initSys privKey lns) = Some σ →
  handlers σ = [] →
  caller σ = CSend c ∧ listReplies (trace (st σ)) = [].
Proof.
  intros Hrun Hnone.
  assert (Hno0 : no_handler (initSys privKey lns)) by (by split).
  rewrite run_app in Hrun.
  destruct (run env ord pre (initSys privKey lns)) as [σa|] eqn:Hpre; [|done].
  cbn [run] in Hrun.
  destruct (step env ord (LPeers c) σa) as [σb|] eqn:Hcall; [|done].
  pose proof (handlers_length_run env ord _ _ _ Hpre) as Hle1.
  pose proof (handlers_length_step env ord _ _ _ Hcall) as Hle2.
  pose proof (handlers_length_run env ord _ _ _ Hrun) as Hle3.
  rewrite Hnone in Hle3. simpl in Hle3.
  destruct (no_handler_run env ord _ _ _ Hpre Hno0) as (Hnoa & Hrepa & _);
    [simpl; lia|].
  destruct (no_handler_step env ord _ _ _ Hcall Hnoa) as (Hnob & Hrepb & _);
    [lia|].
  destruct (no_handler_run env ord _ _ _ Hrun Hnob) as (_ & Hrep2 & Hc2);
    [rewrite Hnone; simpl; lia|].
  split; [|by rewrite Hrep2, Hrepb, Hrepa].
  apply Hc2. simpl in Hcall. by repeat case_match; simplify_eq.
Qed.

(** *** Until [Stop] is called *)

Lemma flags_Start w :
  shutdown (srv (exec Start w)) = shutdown (srv w)
  ∧ quit (srv (exec Start w)) = quit (srv w).
Proof.
  unfold exec. destruct (decide (wrap32 (started (srv w) + 1) = 1)) as [H|H].
  - by rewrite (Start_first _ H).
  - by rewrite (Start_again _ H).
Qed.

Lemma flags_handleQuery (q : query) w :
  shutdown (srv (exec (handleQuery ord q) w)) = shutdown (srv w)
  ∧ quit (srv (exec (handleQuery ord q) w)) = quit (srv w).
Proof.
  destruct q as [msg|msg|]; simpl; unfold exec.
  - by rewrite handleConnectPeer_run.
  - by rewrite handleListPeers_run.
  - done.
Qed.

Lemma flags_dialPeer (msg : connectPeerMsg) w :
  shutdown (srv (exec (dialPeer env msg) w)) = shutdown (srv w)
  ∧ quit (srv (exec (dialPeer env msg) w)) = quit (srv w).
Proof. unfold dialPeer, sendNewPeers. run_code; done. Qed.

Lemma flags_listenerAccept (acc : Conn + error) w :
  shutdown (srv (exec (listenerAccept env acc) w)) = shutdown (srv w)
  ∧ quit (srv (exec (listenerAccept env acc) w)) = quit (srv w).
Proof. unfold listenerAccept, sendNewPeers. run_code; done. Qed.

Lemma flags_manager w :
  (shutdown (srv (exec managerNewPeer w)) = shutdown (srv w)
   ∧ quit (srv (exec managerNewPeer w)) = quit (srv w))
  ∧ (shutdown (srv (exec managerDonePeer w)) = shutdown (srv w)
     ∧ quit (srv (exec managerDonePeer w)) = quit (srv w)).
Proof.
  unfold managerNewPeer, managerDonePeer, addPeer, removePeer.
  split; run_code; done.
Qed.

Lemma runCode_stops {A} (c : M A) σ :
  stopReturns (runCode c σ) = stopReturns σ
  ∧ waiters (runCode c σ) = waiters σ.
Proof.
  unfold runCode.
  by destruct (spawn_fields (events_of c (st σ)) (set_st (exec c (st σ)) σ))
    as (_ & _ & _ & _ & _ & _ & -> & ->).
Qed.

Lemma never_stopped_step l σ σ' :
  step env ord l σ = Some σ' →
  never_stopped σ' →
  never_stopped σ ∧ l ≠ LStop ∧ l ≠ LStopReturn.
Proof.
  unfold never_stopped. intros Hstep [Hr Hw].
  destruct l; simpl in Hstep; repeat case_match; simplify_eq; simpl in *;
    rewrite ?(proj1 (runCode_stops _ _)), ?(proj2 (runCode_stops _ _)) in *;
    try done;
    try (by apply app_nil in Hr as [_ ?]).
Qed.

Lemma Forall_launched (P : handler_pc → Prop) (hs : list handler_pc)
    (evs : list event) :
  P HSelect → Forall P hs → Forall P (hs ++ launchedHandlers evs).
Proof.
  intros HP Hhs. apply Forall_app. split; [done|].
  unfold launchedHandlers. induction evs as [|ev evs IH]; simpl; [done|].
  destruct ev as [| | | | | | | | | | | | | |[]]; simpl; try done.
  by constructor.
Qed.

Lemma Forall_launched_managers (ms : list bool) (evs : list event) :
  Forall (λ b, b = true) ms →
  Forall (λ b, b = true) (ms ++ launchedManagers evs).
Proof.
  intros Hms. apply Forall_app. split; [done|].
  unfold launchedManagers. induction evs as [|ev evs IH]; simpl; [done|].
  destruct ev as [| | | | | | | | | | | | | |[]]; simpl; try done.
  by constructor.
Qed.

Lemma Forall_launched_accepters (acs : list (Listener * accepter_pc))
    (evs : list event) :
  Forall (λ a, a.2 ≠ ADone) acs →
  Forall (λ a, a.2 ≠ ADone) (acs ++ launchedAccepters evs).
Proof.
  intros Hacs. apply Forall_app. split; [done|].
  unfold launchedAccepters. induction evs as [|ev evs IH]; simpl; [done|].
  destruct ev as [| | | | | | | | | | | | | |[]]; simpl; try done.
  by constructor.
Qed.

Lemma all_running_step l σ σ' :
  step env ord l σ = Some σ' →
  l ≠ LStop →
  all_running σ → all_running σ'.
Proof.
  intros Hstep Hl (Hs & Hq & Hh & Hm & Ha). unfold all_running.
  destruct l; simpl in Hstep; repeat case_match; simplify_eq; simpl;
    rewrite ?runCode_st, ?runCode_handlers, ?runCode_managers,
      ?runCode_accepters;
    try done;
    try match goal with
      | H : quit _ = true |- _ => congruence
      end.
  - destruct (flags_Start (st σ)) as [-> ->].
    split; [done|]. split; [done|].
    split; [by apply Forall_launched|].
    split; [by apply Forall_launched_managers|].
    by apply Forall_launched_accepters.
  - destruct (flags_handleQuery (QListPeers (mkListPeersMsg c)) (st σ))
      as [E1 E2]. simpl in E1, E2. rewrite E1, E2.
    split; [done|]. split; [done|].
    split; [apply Forall_insert; [by apply Forall_launched|done]|].
    split; [by apply Forall_launched_managers|].
    by apply Forall_launched_accepters.
  - repeat split; try done. by apply Forall_insert.
  - destruct (flags_handleQuery (QConnectPeer msg) (st σ)) as [E1 E2].
    simpl in E1, E2. rewrite E1, E2.
    split; [done|]. split; [done|].
    split; [by apply Forall_launched|].
    split; [by apply Forall_launched_managers|].
    by apply Forall_launched_accepters.
  - split; [done|]. split; [done|].
    split; [by apply Forall_launched|].
    split; [by apply Forall_launched_managers|].
    by apply Forall_launched_accepters.
  - destruct (flags_dialPeer c (st σ)) as [-> ->].
    split; [done|]. split; [done|].
    split; [by apply Forall_launched|].
    split; [by apply Forall_launched_managers|].
    by apply Forall_launched_accepters.
  - destruct (flags_manager (st σ)) as [[-> ->] _].
    split; [done|]. split; [done|].
    split; [by apply Forall_launched|].
    split; [by apply Forall_launched_managers|].
    by apply Forall_launched_accepters.
  - destruct (flags_manager (st σ)) as [_ [-> ->]].
    split; [done|]. split; [done|].
    split; [by apply Forall_launched|].
    split; [by apply Forall_launched_managers|].
    by apply Forall_launched_accepters.
  - repeat split; try done. by apply Forall_insert.
  - destruct (flags_listenerAccept acc (st σ)) as [-> ->].
    split; [done|]. split; [done|].
    split; [by apply Forall_launched|].
    split; [by apply Forall_launched_managers|].
    by apply Forall_insert.
Qed.

(** Until [Stop] is called no goroutine returns: in every state the server
    reaches without a call of [Stop], the shutdown flag is clear, [quit] is
    open, and every query handler, peer manager and listener goroutine that
    [Start] launched is still running. *)
Theorem running_until_Stop (privKey : Z) (lns : list Listener)
    (ls : list label) σ :
  run env ord ls (initSys privKey lns) = Some σ →
  never_stopped σ →
  all_running σ ∧ (LStop ∉ ls) ∧ (LStopReturn ∉ ls).
Proof.
  revert σ. induction ls as [|l ls IH] using rev_ind; intros σ Hrun Hnever.
  - simplify_eq/=. split; [|split; by intros ?%elem_of_nil].
    unfold all_running. simpl. by repeat split.
  - rewrite run_app in Hrun.
    destruct (run env ord ls (initSys privKey lns)) as [σ0|] eqn:Hpre;
      [|done].
    cbn [run] in Hrun.
    destruct (step env ord l σ0) as [σ1|] eqn:Hstep; simplify_eq.
    destruct (never_stopped_step _ _ _ Hstep Hnever) as (Hnever0 & Hl1 & Hl2).
    destruct (IH σ0 eq_refl Hnever0) as (Hall & Hno1 & Hno2).
    split; [by eapply all_running_step|].
    split; intros [Hin|Hin]%elem_of_app; try done;
      apply list_elem_of_singleton in Hin; congruence.
Qed.

End server_moves.

(** ** The peer manager and the registry *)

Section registry_more.
Implicit Types (w : world) (p q : peer).

Ltac run_code :=
  unfold_monad; simpl; repeat case_match; simpl;
  rewrite <- ?app_assoc; simpl.

Lemma managerNewPeer_running w p (rest : list peer) :
  newPeers (srv w) = p :: rest →
  shutdown (srv w) = 0 →
  managerNewPeer w
  = (tt, mkWorld (set_peers (<[peer_id p := p]> (peers (srv w)))
                    (set_newPeers rest (srv w))) (heap w) (trace w)).
Proof.
  intros Hq Hs. unfold managerNewPeer, addPeer. unfold_monad. rewrite Hq.
  simpl. by rewrite decide_False by (intros ?; contradiction).
Qed.

Lemma managerNewPeer_stopping w p (rest : list peer) :
  newPeers (srv w) = p :: rest →
  shutdown (srv w) ≠ 0 →
  managerNewPeer w
  = (tt, mkWorld (set_newPeers rest (srv w)) (heap w)
           (trace w ++ [EvPeerStop p])).
Proof.
  intros Hq Hs. unfold managerNewPeer, addPeer. unfold_monad. rewrite Hq.
  simpl. by rewrite decide_True.
Qed.

Lemma managerTakes_running (queue : list peer) : ∀ w,
  newPeers (srv w) = queue →
  shutdown (srv w) = 0 →
  managerTakes (length queue) w
  = (tt, mkWorld (set_peers (registerAll queue (peers (srv w)))
                    (set_newPeers [] (srv w))) (heap w) (trace w)).
Proof.
  induction queue as [|p rest IH]; intros w Hq Hs; simpl.
  - unfold_monad. rewrite <- Hq. by destruct w as [[] ? ?].
  - unfold_monad. rewrite (managerNewPeer_running w p rest Hq Hs).
    by rewrite IH.
Qed.

Lemma managerTakes_stopping (queue : list peer) : ∀ w,
  newPeers (srv w) = queue →
  shutdown (srv w) ≠ 0 →
  managerTakes (length queue) w
  = (tt, mkWorld (set_newPeers [] (srv w)) (heap w)
           (trace w ++ (EvPeerStop <$> queue))).
Proof.
  induction queue as [|p rest IH]; intros w Hq Hs; simpl.
  - unfold_monad. rewrite <- Hq, app_nil_r. by destruct w as [[] ? ?].
  - unfold_monad. rewrite (managerNewPeer_stopping w p rest Hq Hs).
    rewrite IH by done. simpl. by rewrite <- app_assoc.
Qed.

(** The peer manager empties [newPeers] in order.  On a running server,
    once it has taken every queued peer, the map holds each of them under
    its id, a later peer winning over an earlier one with the same id (so
    the last queued peer is registered), and nothing is logged.  On a server
    that is shutting down the map is as before and each queued peer was told
    to stop, in order. *)
Theorem managerTakes_all w :
  (shutdown (srv w) = 0 →
     peers (srv (exec (managerTakes (length (newPeers (srv w)))) w))
     = registerAll (newPeers (srv w)) (peers (srv w))
     ∧ newPeers (srv (exec (managerTakes (length (newPeers (srv w)))) w)) = []
     ∧ events_of (managerTakes (length (newPeers (srv w)))) w = []
     ∧ ∀ p, last (newPeers (srv w)) = Some p →
            peers (srv (exec (managerTakes (length (newPeers (srv w)))) w))
              !! peer_id p = Some p)
  ∧ (shutdown (srv w) ≠ 0 →
       peers (srv (exec (managerTakes (length (newPeers (srv w)))) w))
       = peers (srv w)
       ∧ newPeers (srv (exec (managerTakes (length (newPeers (srv w)))) w))
         = []
       ∧ events_of (managerTakes (length (newPeers (srv w)))) w
         = EvPeerStop <$> newPeers (srv w)).
Proof.
  split; intros Hs; unfold events_of, exec.
  - rewrite (managerTakes_running _ w eq_refl Hs). simpl.
    split; [done|]. split; [done|]. split; [by rewrite drop_all|].
    intros p Hlast.
    destruct (newPeers (srv w)) as [|p0 rest] using rev_ind; [done|].
    rewrite last_snoc in Hlast. simplify_eq.
    unfold registerAll. rewrite foldl_snoc. apply lookup_insert_eq.
  - rewrite (managerTakes_stopping _ w eq_refl Hs). simpl.
    by rewrite drop_length_app.
Qed.

(** Removal goes by id, not by peer object.  On a running server,
    [removePeer(p)] after [addPeer(q)] with the same id leaves the map
    without any entry for that id: the peer [q] that took the place of [p]
    is dropped when [p] finishes.  In particular adding and then removing a
    peer whose id was free gives the map back, and removing and then adding
    a peer is the same as adding it. *)
Theorem addPeer_removePeer w p q :
  shutdown (srv w) = 0 →
  peer_id q = peer_id p →
  peers (srv (exec (removePeer (Some p)) (exec (addPeer (Some q)) w)))
  = delete (peer_id p) (peers (srv w))
  ∧ peers (srv (exec (removePeer (Some p)) (exec (addPeer (Some q)) w)))
      !! peer_id q = None
  ∧ (peers (srv w) !! peer_id p = None →
       peers (srv (exec (removePeer (Some p)) (exec (addPeer (Some p)) w)))
       = peers (srv w))
  ∧ peers (srv (exec (addPeer (Some p)) (exec (removePeer (Some p)) w)))
    = peers (srv (exec (addPeer (Some p)) w)).
Proof.
  intros Hs Hid.
  rewrite (addPeer_running _ q Hs), (addPeer_running _ p Hs).
  rewrite (removePeer_running _ p Hs).
  rewrite !removePeer_running, addPeer_running by done. simpl.
  rewrite Hid, !delete_insert_eq.
  split; [done|]. split; [apply lookup_delete_eq|].
  split; [intros Hnone; by apply delete_id|].
  apply insert_delete_eq.
Qed.

(** [Stop] leaves the registry alone: whatever it returns, the peer map, the
    outpoint index, the two queues of the peer manager, the wait group and
    the heap are as before, and no registered peer is told to stop; once
    closed, [quit] stays closed. *)
Theorem Stop_leaves_registry w :
  peers (srv (exec Stop w)) = peers (srv w)
  ∧ chanIndex (srv (exec Stop w)) = chanIndex (srv w)
  ∧ newPeers (srv (exec Stop w)) = newPeers (srv w)
  ∧ donePeers (srv (exec Stop w)) = donePeers (srv w)
  ∧ wg (srv (exec Stop w)) = wg (srv w)
  ∧ started (srv (exec Stop w)) = started (srv w)
  ∧ heap (exec Stop w) = heap w
  ∧ countb isPeerStop (events_of Stop w) = 0%nat
  ∧ (quit (srv w) = true → quit (srv (exec Stop w)) = true).
Proof.
  unfold events_of, exec.
  destruct (decide (wrap32 (shutdown (srv w) + 1) = 1)) as [H|H].
  - rewrite (Stop_first _ H). simpl. rewrite drop_length_app.
    repeat split; try done.
    + rewrite countb_app.
      assert (Hcl : countb isPeerStop
                      (EvListenerClose <$> closedBy (listeners (srv w)))
                    = 0%nat).
      { induction (closedBy (listeners (srv w))) as [|x xs IH]; [done|].
        rewrite fmap_cons. simpl. exact IH. }
      rewrite Hcl. simpl.
      destruct (closeError (listeners (srv w))); [done|].
      by destruct (quit (srv w)).
    + intros Hq. by destruct (closeError (listeners (srv w))).
  - rewrite (Stop_again _ H). simpl. rewrite drop_all. by repeat split.
Qed.

End registry_more.

(** ** Queries, dialer and listeners *)

Section queries_more.
Context (env : Env) (ord : MapOrder).
Implicit Types (w : world) (p q : peer).

Ltac run_code :=
  unfold_monad; simpl; repeat case_match; simpl;
  rewrite <- ?app_assoc; simpl.

Lemma handleListPeers_reply (msg : listPeersMsg) w :
  ∃ sl,
    events_of (handleListPeers ord msg) w = [EvSendPeers (lp_resp msg) sl]
    ∧ replyPeers (exec (handleListPeers ord msg) w) sl
      = Some <$> (range_of ord (peers (srv w))).*2
    ∧ s_len sl = size (peers (srv w)).
Proof.
  eexists. unfold events_of, replyPeers, slice_elems, exec.
  rewrite handleListPeers_run. simpl. rewrite drop_length_app.
  split; [reflexivity|]. simpl. rewrite lookup_insert_eq. simpl.
  split; [|done]. apply take_ge. rewrite !length_fmap, range_of_length. lia.
Qed.

Lemma range_of_member (m : gmap Z peer) p :
  p ∈ (range_of ord m).*2 ↔ ∃ k, m !! k = Some p.
Proof.
  rewrite (range_of_perm ord m). rewrite list_elem_of_fmap. split.
  - intros ([k p'] & -> & Hin). exists k. by apply elem_of_map_to_list.
  - intros [k Hk]. exists (k, p). split; [done|].
    by apply elem_of_map_to_list.
Qed.

Lemma handleListPeers_holds (msg : listPeersMsg) w :
  ∃ sl,
    events_of (handleListPeers ord msg) w = [EvSendPeers (lp_resp msg) sl]
    ∧ (∀ p, Some p ∈ replyPeers (exec (handleListPeers ord msg) w) sl
            ↔ ∃ k, peers (srv w) !! k = Some p).
Proof.
  destruct (handleListPeers_reply msg w) as (sl & Hev & Hrep & _).
  exists sl. split; [done|]. rewrite Hrep.
  intros p. rewrite <- range_of_member. rewrite list_elem_of_fmap. split.
  - by intros (p' & [= ->] & Hin).
  - intros Hin. by exists p.
Qed.

(** The reply to a list query holds exactly the registered peers: a peer is
    in it if and only if some entry of the map holds it; it has no nil
    entry; and on an empty registry it is the empty slice. *)
Theorem handleListPeers_members (msg : listPeersMsg) w :
  ∃ sl,
    events_of (handleListPeers ord msg) w = [EvSendPeers (lp_resp msg) sl]
    ∧ (∀ p, Some p ∈ replyPeers (exec (handleListPeers ord msg) w) sl
            ↔ ∃ k, peers (srv w) !! k = Some p)
    ∧ (None ∉ replyPeers (exec (handleListPeers ord msg) w) sl)
    ∧ (peers (srv w) = ∅ →
         s_len sl = 0%nat
         ∧ replyPeers (exec (handleListPeers ord msg) w) sl = []).
Proof.
  destruct (handleListPeers_reply msg w) as (sl & Hev & Hrep & Hlen).
  exists sl. split; [done|]. rewrite Hrep. split; [|split].
  - intros p. rewrite <- range_of_member. rewrite list_elem_of_fmap. split.
    + by intros (p' & [= ->] & Hin).
    + intros Hin. by exists p.
  - by intros (p' & ? & _)%list_elem_of_fmap.
  - intros Hempty. rewrite Hlen, Hempty. split; [apply map_size_empty|].
    assert (Hnil : range_of ord (∅ : gmap Z peer) = []).
    { apply length_zero_iff_nil.
      by rewrite range_of_length, map_size_empty. }
    by rewrite Hnil.
Qed.

(** Adding and removing show in the next list query.  On a running server,
    after [addPeer(p)] the reply holds [p]; after [removePeer(p)], on a
    registry that stores each peer under its own id, the reply holds no peer
    with the id of [p], and every other registered peer is still in it. *)
Theorem listed_after_update (msg : listPeersMsg) w p :
  shutdown (srv w) = 0 →
  (∃ sl,
     events_of (handleListPeers ord msg) (exec (addPeer (Some p)) w)
     = [EvSendPeers (lp_resp msg) sl]
     ∧ Some p ∈ replyPeers
                  (exec (handleListPeers ord msg) (exec (addPeer (Some p)) w))
                  sl)
  ∧ (peers_keyed (srv w) →
     ∃ sl,
       events_of (handleListPeers ord msg) (exec (removePeer (Some p)) w)
       = [EvSendPeers (lp_resp msg) sl]
       ∧ (∀ q, peer_id q = peer_id p →
               Some q ∉ replyPeers
                          (exec (handleListPeers ord msg)
                             (exec (removePeer (Some p)) w)) sl)
       ∧ (∀ k q, peers (srv w) !! k = Some q → k ≠ peer_id p →
                 Some q ∈ replyPeers
                            (exec (handleListPeers ord msg)
                               (exec (removePeer (Some p)) w)) sl)).
Proof.
  intros Hs. split.
  - destruct (handleListPeers_holds msg (exec (addPeer (Some p)) w))
      as (sl & Hev & Hmem).
    exists sl. split; [done|]. apply Hmem. exists (peer_id p).
    rewrite (addPeer_running _ _ Hs). simpl. apply lookup_insert_eq.
  - intros Hkey.
    destruct (handleListPeers_holds msg (exec (removePeer (Some p)) w))
      as (sl & Hev & Hmem).
    exists sl. split; [done|].
    rewrite (removePeer_running _ _ Hs) in *. simpl in *. split.
    + intros q Hid [k Hk]%Hmem.
      apply lookup_delete_Some in Hk as [Hne Hk].
      apply Hkey in Hk. congruence.
    + intros k q Hk Hne. apply Hmem. exists k.
      by rewrite lookup_delete_ne.
Qed.





(** A connect that succeeds ends in the registry.  On a running server,
    when the dial succeeds and [newPeer] yields [p], the goroutine puts [p]
    last in [newPeers] and replies with its id and no error; once the peer
    manager has taken the queued peers, [p] is registered under its id and
    the next list query holds it. *)
Theorem connect_then_registered (msg : connectPeerMsg)
    (lmsg : listPeersMsg) w p :
  shutdown (srv w) = 0 →
  conn_Dial env (identityPriv (srv w)) (NetAddr (addr msg))
    (remoteIdOf (addr msg)) = None →
  newPeer env (mkConn (NetAddr (addr msg)) (remoteIdOf (addr msg))) false
  = inl p →
  ∃ w1 w2 sl,
    w1 = exec (dialPeer env msg) w
    ∧ w2 = exec (managerTakes (length (newPeers (srv w1)))) w1
    ∧ events_of (dialPeer env msg) w
      = [EvDial (identityPriv (srv w)) (NetAddr (addr msg))
           (remoteIdOf (addr msg));
         EvPeerStart p; EvSendNewPeers p;
         EvSendResp (resp msg) (peer_id p); EvSendErr (err msg) None]
    ∧ newPeers (srv w1) = newPeers (srv w) ++ [p]
    ∧ peers (srv w2) !! peer_id p = Some p
    ∧ newPeers (srv w2) = []
    ∧ events_of (handleListPeers ord lmsg) w2
      = [EvSendPeers (lp_resp lmsg) sl]
    ∧ Some p ∈ replyPeers (exec (handleListPeers ord lmsg) w2) sl.
Proof.
  intros Hs Hd Hn.
  assert (Hrun : dialPeer env msg w
    = (tt, mkWorld (set_newPeers (newPeers (srv w) ++ [p]) (srv w)) (heap w)
             (trace w
                ++ [EvDial (identityPriv (srv w)) (NetAddr (addr msg))
                      (remoteIdOf (addr msg));
                    EvPeerStart p; EvSendNewPeers p;
                    EvSendResp (resp msg) (peer_id p);
                    EvSendErr (err msg) None]))).
  { unfold dialPeer, sendNewPeers. unfold_monad. simpl. rewrite Hd, Hn. simpl.
    by rewrite <- !app_assoc. }
  set (w1 := exec (dialPeer env msg) w).
  set (w2 := exec (managerTakes (length (newPeers (srv w1)))) w1).
  assert (Hq1 : newPeers (srv w1) = newPeers (srv w) ++ [p]).
  { unfold w1, exec. by rewrite Hrun. }
  assert (Hs1 : shutdown (srv w1) = 0).
  { unfold w1, exec. by rewrite Hrun. }
  assert (Hw2 : w2
    = mkWorld (set_peers (registerAll (newPeers (srv w) ++ [p])
                            (peers (srv w1)))
                 (set_newPeers [] (srv w1))) (heap w1) (trace w1)).
  { unfold w2, exec. rewrite Hq1.
    by rewrite (managerTakes_running _ w1 Hq1 Hs1). }
  assert (Hempty : newPeers (srv w2) = []) by (by rewrite Hw2).
  assert (Hreg : peers (srv w2) !! peer_id p = Some p).
  { rewrite Hw2. simpl. unfold registerAll. rewrite foldl_snoc.
    apply lookup_insert_eq. }
  destruct (handleListPeers_holds lmsg w2) as (sl & Hev & Hmem).
  exists w1, w2, sl. split; [done|]. split; [done|].
  split. { unfold events_of, exec. rewrite Hrun. simpl.
           by rewrite drop_length_app. }
  split; [done|]. split; [done|]. split; [done|]. split; [done|].
  apply Hmem. by exists (peer_id p).
Qed.

(** A listener publishes only peers.  One turn of its loop either changes
    nothing at all (an accept error, or a connection no peer could be built
    from) or starts the new peer and then appends it to [newPeers]; it never
    writes the peer map, the outpoint index, the counters or the heap. *)
Lemma listenerAccept_publishes (acc : Conn + error) w :
  (exec (listenerAccept env acc) w = w
   ∧ ∀ conn, acc = inl conn → ∃ e, newPeer env conn true = inr e)
  ∨ (∃ conn p,
       acc = inl conn
       ∧ newPeer env conn true = inl p
       ∧ events_of (listenerAccept env acc) w
         = [EvPeerStart p; EvSendNewPeers p]
       ∧ srv (exec (listenerAccept env acc) w)
         = set_newPeers (newPeers (srv w) ++ [p]) (srv w)
       ∧ heap (exec (listenerAccept env acc) w) = heap w).
Proof.
  unfold listenerAccept, sendNewPeers.
  destruct acc as [conn|e]; [|left; split; [done|by intros ? [=]]].
  destruct (newPeer env conn true) as [p|e] eqn:Hn.
  - right. exists conn, p. unfold_monad. simpl.
    rewrite <- !app_assoc, drop_length_app. by repeat split.
  - left. split; [done|]. intros ? [= <-]. by exists e.
Qed.

End queries_more.

(** ** The accept loop *)

Section accept_loop.
Context (env : Env) (ord : MapOrder).
Implicit Types (σ : sys).

(** A listener survives failed accepts.  When [Accept()] returns an error,
    or a connection from which no peer can be built, the goroutine goes back
    to the head of its loop: the move is always possible, the server and the
    other goroutines are as before, and while the shutdown flag is clear the
    goroutine can enter [Accept()] again. *)
Theorem listener_continues (k : nat) (ln : Listener) (acc : Conn + error) σ :
  accepters σ !! k = Some (ln, AAccept) →
  (∀ conn, acc = inl conn → ∃ e, newPeer env conn true = inr e) →
  ∃ σ',
    step env ord (LAccept k acc) σ = Some σ'
    ∧ st σ' = st σ
    ∧ accepters σ' = <[k := (ln, ALoop)]> (accepters σ)
    ∧ handlers σ' = handlers σ
    ∧ managers σ' = managers σ
    ∧ (shutdown (srv (st σ)) = 0 →
         step env ord (LAcceptEnter k) σ'
         = Some (set_accepters (<[k := (ln, AAccept)]> (accepters σ')) σ')).
Proof.
  intros Hk Hfail.
  assert (Hsame : exec (listenerAccept env acc) (st σ) = st σ).
  { destruct (listenerAccept_publishes env acc (st σ))
      as [[Hw _]|(conn & p & -> & Hp & _)]; [done|].
    destruct (Hfail conn eq_refl) as [e He]. congruence. }
  assert (Hev : events_of (listenerAccept env acc) (st σ) = []).
  { unfold events_of. rewrite Hsame. apply drop_all. }
  assert (Hrun : runCode (listenerAccept env acc) σ = set_st (st σ) σ).
  { unfold runCode. by rewrite Hev, Hsame. }
  eexists. simpl. rewrite Hk. unfold canRun. rewrite Hev. simpl.
  rewrite Hrun. split; [reflexivity|]. simpl.
  split; [done|]. split; [done|]. split; [done|]. split; [done|].
  intros Hs. rewrite list_lookup_insert_eq by (by eapply lookup_lt_Some).
  by rewrite decide_True.
Qed.

End accept_loop.

(** ** The further statements at sample states *)

(** A key store whose database fails, and one that yields the key 5. *)
Lemma getIdentityPrivKey_spec_witness :
  GetIdAdr ksNoDb = inr "no identity address"
  ∧ getIdentityPrivKey ksNoDb = (Err "no identity address", [CGetIdAdr])
  ∧ (getIdentityPrivKey ksGood).1 = Ok 5.
Proof.
  assert (Hdb : GetIdAdr ksNoDb = inr "no identity address") by reflexivity.
  split; [exact Hdb|]. split.
  - destruct (getIdentityPrivKey_spec ksNoDb) as (_ & Herr & _).
    exact (Herr _ Hdb).
  - destruct (getIdentityPrivKey_spec ksGood) as (Hok & _).
    apply (Hok 5). exists "idadr", [2; 9; 9]. split; reflexivity.
Defined.

(** Two addresses that can be listened on. *)
Lemma newServerCall_ok_witness :
  newServerCall ksGood listenSome addrsGood
  = (Ok (newServer 5 [mkListener "127.0.0.1:10011" None;
                      mkListener "127.0.0.1:10013" None]),
     [CGetIdAdr; CManagerAddress "idadr"; CPrivKey;
      CNewListener 5 "127.0.0.1:10011"; CNewListener 5 "127.0.0.1:10013";
      CNewFundingManager; CNewRpcServer])
  ∧ length (listeners (newServer 5 [mkListener "127.0.0.1:10011" None;
                                    mkListener "127.0.0.1:10013" None]))
    = length addrsGood
  ∧ listenedOn [CGetIdAdr; CManagerAddress "idadr"; CPrivKey;
                CNewListener 5 "127.0.0.1:10011";
                CNewListener 5 "127.0.0.1:10013";
                CNewFundingManager; CNewRpcServer] = addrsGood.
Proof.
  assert (Hnew : newServerCall ksGood listenSome addrsGood
    = (Ok (newServer 5 [mkListener "127.0.0.1:10011" None;
                        mkListener "127.0.0.1:10013" None]),
       [CGetIdAdr; CManagerAddress "idadr"; CPrivKey;
        CNewListener 5 "127.0.0.1:10011"; CNewListener 5 "127.0.0.1:10013";
        CNewFundingManager; CNewRpcServer])) by (vm_compute; reflexivity).
  split; [exact Hnew|].
  destruct (newServerCall_ok ksGood listenSome addrsGood _ _ Hnew)
    as (_ & _ & Hlen & Hlog & _).
  split; [exact Hlen|exact Hlog].
Defined.

(** The database fails. *)
Lemma newServerCall_key_error_witness :
  (getIdentityPrivKey ksNoDb).1 = Err "no identity address"
  ∧ (newServerCall ksNoDb listenSome addrsGood).1 = Err "no identity address"
  ∧ listenedOn (newServerCall ksNoDb listenSome addrsGood).2 = [].
Proof.
  assert (Hkey : (getIdentityPrivKey ksNoDb).1 = Err "no identity address")
    by reflexivity.
  split; [exact Hkey|].
  destruct (newServerCall_key_error ksNoDb listenSome addrsGood _ Hkey)
    as (H1 & H2 & _).
  split; [exact H1|exact H2].
Defined.

(** The second of three addresses cannot be opened. *)
Lemma newServerCall_listener_error_witness :
  (getIdentityPrivKey ksGood).1 = Ok 5
  ∧ Forall (λ x, ∃ l, listenSome 5 x = inl l) ["127.0.0.1:10011"]
  ∧ listenSome 5 "127.0.0.1:10012" = inr "address in use"
  ∧ (newServerCall ksGood listenSome addrsBad).1 = Err "address in use"
  ∧ listenedOn (newServerCall ksGood listenSome addrsBad).2
    = ["127.0.0.1:10011"] ++ ["127.0.0.1:10012"].
Proof.
  assert (Hkey : (getIdentityPrivKey ksGood).1 = Ok 5) by reflexivity.
  assert (Hpre : Forall (λ x, ∃ l, listenSome 5 x = inl l)
                   ["127.0.0.1:10011"]).
  { constructor; [|constructor]. eexists. vm_compute. reflexivity. }
  assert (Ha : listenSome 5 "127.0.0.1:10012" = inr "address in use")
    by (vm_compute; reflexivity).
  split; [exact Hkey|]. split; [exact Hpre|]. split; [exact Ha|].
  destruct (newServerCall_listener_error ksGood listenSome 5
              ["127.0.0.1:10011"] "127.0.0.1:10012" ["127.0.0.1:10013"]
              "address in use" Hkey Hpre Ha) as (H1 & H2 & _).
  split; [exact H1|exact H2].
Defined.


(** The server after a peer was accepted, registered and indexed. *)
Lemma wg_counts_goroutines_witness :
  run envUp default_order indexRun (initSys 5 [lnOk]) = Some sysIndexed
  ∧ wg (srv (st sysIndexed)) = Z.of_nat (alive sysIndexed)
  ∧ 0 ≤ wg (srv (st sysIndexed)).
Proof.
  assert (Hrun : run envUp default_order indexRun (initSys 5 [lnOk])
                 = Some sysIndexed) by (vm_compute; reflexivity).
  split; [exact Hrun|].
  exact (wg_counts_goroutines envUp default_order 5 [lnOk] indexRun
           sysIndexed Hrun).
Defined.

(** The server while its goroutines have not all returned. *)
Lemma WaitForShutdown_spec_witness :
  run envUp default_order stoppedRun (initSys 5 [lnOk]) = Some sysStopping
  ∧ (WaitForShutdown sysStopping = Some sysStopping
     ↔ Forall (λ h, h = HDone) (handlers sysStopping)
       ∧ Forall (λ b, b = false) (managers sysStopping)
       ∧ Forall (λ a, a.2 = ADone) (accepters sysStopping))
  ∧ WaitForShutdown (initSys 5 [lnOk]) = Some (initSys 5 [lnOk]).
Proof.
  assert (Hrun : run envUp default_order stoppedRun (initSys 5 [lnOk])
                 = Some sysStopping) by (vm_compute; reflexivity).
  split; [exact Hrun|].
  destruct (WaitForShutdown_spec envUp default_order 5 [lnOk] stoppedRun
              sysStopping Hrun) as (H1 & _ & H3).
  split; [exact H1|exact H3].
Defined.

(** A call of [Stop] on a server with a registered peer. *)
Lemma registry_single_writer_witness :
  step envUp default_order LStop sysIndexed
  = Some (default sysIndexed (step envUp default_order LStop sysIndexed))
  ∧ peers (srv (st (default sysIndexed
                      (step envUp default_order LStop sysIndexed))))
    = peers (srv (st sysIndexed)).
Proof.
  assert (Hstep : step envUp default_order LStop sysIndexed
    = Some (default sysIndexed (step envUp default_order LStop sysIndexed)))
    by (vm_compute; reflexivity).
  split; [exact Hstep|].
  apply (registry_single_writer envUp default_order LStop sysIndexed _ Hstep);
    intros j H; discriminate H.
Defined.


(** The registered peer of the indexed server. *)
Lemma registered_ids_unique_witness :
  run envUp default_order indexRun (initSys 5 [lnOk]) = Some sysIndexed
  ∧ peers (srv (st sysIndexed)) !! 9 = Some peerC
  ∧ 9 = peer_id peerC.
Proof.
  assert (Hrun : run envUp default_order indexRun (initSys 5 [lnOk])
                 = Some sysIndexed) by (vm_compute; reflexivity).
  assert (Hp : peers (srv (st sysIndexed)) !! 9 = Some peerC)
    by (vm_compute; reflexivity).
  split; [exact Hrun|]. split; [exact Hp|].
  exact (proj1 (registered_ids_unique envUp default_order 5 [lnOk] indexRun
                  sysIndexed 9 9 peerC peerC Hrun Hp Hp eq_refl)).
Defined.

(** A call of [Peers()] on a started server with no peer. *)
Lemma Peers_returns_snapshot_witness :
  handlers sysStarted !! 0%nat = Some HSelect
  ∧ caller sysStarted = CIdle
  ∧ ∃ σ' sl,
      run envUp default_order [LPeers 20; LQueryList 0; LReply 0] sysStarted
      = Some σ'
      ∧ caller σ' = CReturned sl
      ∧ handlers σ' = handlers sysStarted.
Proof.
  assert (Hh : handlers sysStarted !! 0%nat = Some HSelect)
    by (vm_compute; reflexivity).
  assert (Hc : caller sysStarted = CIdle) by (vm_compute; reflexivity).
  split; [exact Hh|]. split; [exact Hc|].
  destruct (Peers_returns_snapshot envUp default_order 0 20 sysStarted Hh
              (or_introl Hc)) as (σ' & sl & H1 & H2 & _ & _ & H5 & _).
  exists σ', sl. split; [exact H1|]. split; [exact H2|exact H5].
Defined.

(** A call of [Peers()] and then of [Stop] on a server never started. *)
Lemma Peers_blocked_before_Start_witness :
  run envUp default_order ([] ++ LPeers 20 :: [LStop]) (initSys 5 [lnOk])
  = Some sysUnstarted
  ∧ handlers sysUnstarted = []
  ∧ caller sysUnstarted = CSend 20
  ∧ listReplies (trace (st sysUnstarted)) = [].
Proof.
  assert (Hrun : run envUp default_order ([] ++ LPeers 20 :: [LStop])
                   (initSys 5 [lnOk]) = Some sysUnstarted)
    by (vm_compute; reflexivity).
  assert (Hh : handlers sysUnstarted = []) by (vm_compute; reflexivity).
  split; [exact Hrun|]. split; [exact Hh|].
  exact (Peers_blocked_before_Start envUp default_order 5 [lnOk] [] [LStop]
           20 sysUnstarted Hrun Hh).
Defined.

(** The indexed server was reached without a call of [Stop]. *)
Lemma running_until_Stop_witness :
  run envUp default_order indexRun (initSys 5 [lnOk]) = Some sysIndexed
  ∧ never_stopped sysIndexed
  ∧ all_running sysIndexed.
Proof.
  assert (Hrun : run envUp default_order indexRun (initSys 5 [lnOk])
                 = Some sysIndexed) by (vm_compute; reflexivity).
  assert (Hnever : never_stopped sysIndexed)
    by (split; vm_compute; reflexivity).
  split; [exact Hrun|]. split; [exact Hnever|].
  exact (proj1 (running_until_Stop envUp default_order 5 [lnOk] indexRun
                  sysIndexed Hrun Hnever)).
Defined.

(** Two queued peers, on a running server and on one shutting down. *)
Lemma managerTakes_all_witness :
  (shutdown (srv worldQueued) = 0
   ∧ peers (srv (exec (managerTakes (length (newPeers (srv worldQueued))))
                   worldQueued))
     = registerAll (newPeers (srv worldQueued)) (peers (srv worldQueued))
   ∧ last (newPeers (srv worldQueued)) = Some peerA'
   ∧ peers (srv (exec (managerTakes (length (newPeers (srv worldQueued))))
                   worldQueued)) !! peer_id peerA' = Some peerA')
  ∧ (shutdown (srv worldQueued_down) ≠ 0
     ∧ events_of (managerTakes (length (newPeers (srv worldQueued_down))))
         worldQueued_down
       = EvPeerStop <$> newPeers (srv worldQueued_down)).
Proof.
  split.
  - assert (Hs : shutdown (srv worldQueued) = 0) by reflexivity.
    assert (Hl : last (newPeers (srv worldQueued)) = Some peerA')
      by reflexivity.
    destruct (managerTakes_all worldQueued) as [Hrun _].
    destruct (Hrun Hs) as (H1 & _ & _ & H4).
    split; [exact Hs|]. split; [exact H1|]. split; [exact Hl|].
    exact (H4 peerA' Hl).
  - assert (Hs : shutdown (srv worldQueued_down) ≠ 0)
      by (simpl; discriminate).
    destruct (managerTakes_all worldQueued_down) as [_ Hdown].
    destruct (Hdown Hs) as (_ & _ & H3).
    split; [exact Hs|exact H3].
Defined.

(** [peerA'] takes the place of [peerA], which then finishes. *)
Lemma addPeer_removePeer_witness :
  shutdown (srv worldA) = 0
  ∧ peer_id peerA' = peer_id peerA
  ∧ peers (srv (exec (removePeer (Some peerA))
                   (exec (addPeer (Some peerA')) worldA)))
    = delete (peer_id peerA) (peers (srv worldA))
  ∧ peers (srv (exec (removePeer (Some peerA))
                   (exec (addPeer (Some peerA')) worldA)))
      !! peer_id peerA' = None.
Proof.
  assert (Hs : shutdown (srv worldA) = 0) by reflexivity.
  assert (Hid : peer_id peerA' = peer_id peerA) by reflexivity.
  split; [exact Hs|]. split; [exact Hid|].
  destruct (addPeer_removePeer worldA peerA peerA' Hs Hid) as (H1 & H2 & _).
  split; [exact H1|exact H2].
Defined.

(** [Stop] once [quit] is closed. *)
Lemma Stop_leaves_registry_witness :
  quit (srv (exec Stop worldAB)) = true
  ∧ quit (srv (exec Stop (exec Stop worldAB))) = true
  ∧ peers (srv (exec Stop worldAB)) = peers (srv worldAB).
Proof.
  assert (Hq : quit (srv (exec Stop worldAB)) = true) by reflexivity.
  split; [exact Hq|].
  destruct (Stop_leaves_registry (exec Stop worldAB))
    as (_ & _ & _ & _ & _ & _ & _ & _ & Hkeep).
  split; [exact (Hkeep Hq)|].
  exact (proj1 (Stop_leaves_registry worldAB)).
Defined.

(** A list query on an empty registry. *)
Lemma handleListPeers_members_witness :
  peers (srv (initWorld 5 [lnOk])) = ∅
  ∧ ∃ sl,
      events_of (handleListPeers default_order (mkListPeersMsg 20))
        (initWorld 5 [lnOk]) = [EvSendPeers 20 sl]
      ∧ s_len sl = 0%nat
      ∧ replyPeers (exec (handleListPeers default_order (mkListPeersMsg 20))
                      (initWorld 5 [lnOk])) sl = [].
Proof.
  assert (He : peers (srv (initWorld 5 [lnOk])) = ∅) by reflexivity.
  split; [exact He|].
  destruct (handleListPeers_members default_order (mkListPeersMsg 20)
              (initWorld 5 [lnOk])) as (sl & H1 & _ & _ & H4).
  exists sl. split; [exact H1|]. exact (H4 He).
Defined.

(** A list query after [peerC] was added to a registry of two peers. *)
Lemma listed_after_update_witness :
  shutdown (srv worldAB) = 0
  ∧ ∃ sl,
      events_of (handleListPeers default_order (mkListPeersMsg 20))
        (exec (addPeer (Some peerC)) worldAB) = [EvSendPeers 20 sl]
      ∧ Some peerC
        ∈ replyPeers
            (exec (handleListPeers default_order (mkListPeersMsg 20))
               (exec (addPeer (Some peerC)) worldAB)) sl.
Proof.
  assert (Hs : shutdown (srv worldAB) = 0) by reflexivity.
  split; [exact Hs|].
  exact (proj1 (listed_after_update default_order (mkListPeersMsg 20)
                  worldAB peerC Hs)).
Defined.



(** A connect to a reachable endpoint. *)
Lemma connect_then_registered_witness :
  shutdown (srv worldA) = 0
  ∧ conn_Dial envUp (identityPriv (srv worldA)) (NetAddr (addr msgY))
      (remoteIdOf (addr msgY)) = None
  ∧ newPeer envUp (mkConn (NetAddr (addr msgY)) (remoteIdOf (addr msgY)))
      false = inl peerC
  ∧ ∃ w2, peers (srv w2) !! peer_id peerC = Some peerC ∧ newPeers (srv w2) = [].
Proof.
  assert (Hs : shutdown (srv worldA) = 0) by reflexivity.
  assert (Hd : conn_Dial envUp (identityPriv (srv worldA))
                 (NetAddr (addr msgY)) (remoteIdOf (addr msgY)) = None)
    by reflexivity.
  assert (Hn : newPeer envUp
                 (mkConn (NetAddr (addr msgY)) (remoteIdOf (addr msgY)))
                 false = inl peerC) by reflexivity.
  split; [exact Hs|]. split; [exact Hd|]. split; [exact Hn|].
  destruct (connect_then_registered envUp default_order msgY
              (mkListPeersMsg 20) worldA peerC Hs Hd Hn)
    as (w1 & w2 & sl & _ & _ & _ & _ & H5 & H6 & _).
  exists w2. split; [exact H5|exact H6].
Defined.

(** An accept error on a listener that is inside [Accept()]. *)
Lemma listener_continues_witness :
  accepters sysAccepting !! 0%nat = Some (lnOk, AAccept)
  ∧ ∃ σ',
      step envUp default_order (LAccept 0 (inr "accept failed")) sysAccepting
      = Some σ'
      ∧ st σ' = st sysAccepting
      ∧ accepters σ' = <[0%nat := (lnOk, ALoop)]> (accepters sysAccepting).
Proof.
  assert (Hk : accepters sysAccepting !! 0%nat = Some (lnOk, AAccept))
    by (vm_compute; reflexivity).
  assert (Hfail : ∀ conn, inr "accept failed" = inl conn →
                          ∃ e, newPeer envUp conn true = inr e)
    by (intros conn H; discriminate H).
  split; [exact Hk|].
  destruct (listener_continues envUp default_order 0 lnOk
              (inr "accept failed") sysAccepting Hk Hfail)
    as (σ' & H1 & H2 & H3 & _).
  exists σ'. split; [exact H1|]. split; [exact H2|exact H3].
Defined.
